(** * RayMarcherToy: the signed-distance scene, the ray marcher and the
      tile renderer of [RayMarcher.cpp] and [MathClasses.h].

    Numbers.  A [real32] value is modelled by a rational of [Q], and
    equality of scalars is [Qeq] ([==]).  Sums, products and quotients are
    exact unless a rounded operation is named, so that only properties
    that survive rounding are stated of them: comparisons, minima and
    maxima, signs, and what follows from these.  Where the behaviour of the
    source rests on rounding it is modelled: the sum [time += distance] of
    the shadow march is a parameter [addf], instantiated with the binary32
    sum of [Binary32].  The one place where the source relies on an IEEE
    special value (the quotient by [time = 0] in [MarchShadowRay]) is
    modelled with an extended scalar, see [xreal32].  The hardware functions
    that have no rational counterpart (square root, reciprocal square root,
    tangent) are parameters of the development.

    Integers.  [uint32_t] and [int32_t] values are modelled by [Z], with the
    32-bit wrap-around written where the source computes in 32 bits. *)

From Stdlib Require Import ZArith QArith Qabs Qround Qminmax Qfield Qpower List Lia
  Lqa Bool.
From stdpp Require Import base list.
Import ListNotations.
Open Scope Q_scope.

(** ** Scalars *)

Definition real32 : Type := Q.

(** [lhs < rhs] on [real32], as a boolean. *)
Definition fltb (x y : real32) : bool :=
  match x ?= y with Lt => true | _ => false end.

(** [static_cast<uint32_t>] and arithmetic on [uint32_t]. *)
Definition wrap32 (z : Z) : Z := (z mod 2 ^ 32)%Z.

(** [floorf]. *)
Definition floorf (x : real32) : real32 := inject_Z (Qfloor x).

Module NMath.

Definition min_val (lhs rhs : real32) : real32 :=
  if fltb lhs rhs then lhs else rhs.

Definition max_val (lhs rhs : real32) : real32 :=
  if fltb rhs lhs then lhs else rhs.

(** The [uint32_t] instances of the same templates. *)
Definition min_val_u (lhs rhs : Z) : Z := if (lhs <? rhs)%Z then lhs else rhs.
Definition max_val_u (lhs rhs : Z) : Z := if (lhs >? rhs)%Z then lhs else rhs.

Definition lerp (a b t : real32) : real32 := a + ((b - a) * t).

Definition AbsF (value : real32) : real32 := Qabs value.

Definition gkEpsilon : real32 := 1192092896 # 10000000000000000.

Definition small_enough (value : real32) : bool :=
  fltb (AbsF value) (gkEpsilon * 10).

(** [NMath::clamp(lhs, value, rhs)], as written. *)
Definition clamp (lhs value rhs : real32) : real32 :=
  if fltb lhs value then lhs else (if fltb value rhs then rhs else value).

(** The [for] loop of [NMath::NextPowerOfTwo], from the exponent [i]; the
    shift is computed in [uint32_t]. *)
Fixpoint NextPowerOfTwo_loop (fuel : nat) (i : Z) (value : Z) : Z :=
  match fuel with
  | O => wrap32 (Z.shiftl 1 31)
  | S fuel' =>
      let power_of_two := wrap32 (Z.shiftl 1 i) in
      if (power_of_two >=? value)%Z then power_of_two
      else NextPowerOfTwo_loop fuel' (i + 1)%Z value
  end.

Definition NextPowerOfTwo (value : Z) : Z := NextPowerOfTwo_loop 32 0 value.

End NMath.

Definition skMaxLength : real32 := 60.
Definition skMinLength : real32 := 1 # 10000.
Definition skSecondaryRayOffset : real32 := skMinLength * 10.
Definition skInitialStepSize : Z := 1.
Definition skLargeNumber : real32 := 1000000000000.
Definition skSmallNumber : real32 := 1 # 100000.

(** ** Vectors, transforms and colours ([MathClasses.h]) *)

Record CVector3f : Type := mkVector { mX : real32; mY : real32; mZ : real32 }.

Module Vec.

Definition Zero : CVector3f := mkVector 0 0 0.
Definition Up : CVector3f := mkVector 0 1 0.

Definition neg (v : CVector3f) : CVector3f :=
  mkVector (- mX v) (- mY v) (- mZ v).
Definition add (l r : CVector3f) : CVector3f :=
  mkVector (mX l + mX r) (mY l + mY r) (mZ l + mZ r).
Definition sub (l r : CVector3f) : CVector3f :=
  mkVector (mX l - mX r) (mY l - mY r) (mZ l - mZ r).
Definition scale (l : CVector3f) (r : real32) : CVector3f :=
  mkVector (mX l * r) (mY l * r) (mZ l * r).

(** [_mm_dp_ps] with mask [0x71]: the sum of the first three products. *)
Definition Dot (l r : CVector3f) : real32 :=
  mX l * mX r + mY l * mY r + mZ l * mZ r.

Definition CrossProductWith (l r : CVector3f) : CVector3f :=
  mkVector (mY l * mZ r - mZ l * mY r)
           (mZ l * mX r - mX l * mZ r)
           (mX l * mY r - mY l * mX r).

(** Pointwise numeric equality. *)
Definition eqv (l r : CVector3f) : Prop :=
  mX l == mX r /\ mY l == mY r /\ mZ l == mZ r.

End Vec.

Record CTransform4f : Type := mkTransform {
  m00 : real32; m01 : real32; m02 : real32; m03 : real32;
  m10 : real32; m11 : real32; m12 : real32; m13 : real32;
  m20 : real32; m21 : real32; m22 : real32; m23 : real32 }.

Module Xf.

Definition Identity : CTransform4f :=
  mkTransform 1 0 0 0
              0 1 0 0
              0 0 1 0.

Definition Translate (x y z : real32) : CTransform4f :=
  mkTransform 1 0 0 x
              0 1 0 y
              0 0 1 z.

Definition Scale (x y z : real32) : CTransform4f :=
  mkTransform x 0 0 0
              0 y 0 0
              0 0 z 0.

Definition FromVectors (x y z t : CVector3f) : CTransform4f :=
  mkTransform (mX x) (mX y) (mX z) (mX t)
              (mY x) (mY y) (mY z) (mY t)
              (mZ x) (mZ y) (mZ z) (mZ t).

(** [operator*(CVector3f)]: the point is extended by a fourth
    coordinate 1 and dotted with each row. *)
Definition apply (m : CTransform4f) (rhs : CVector3f) : CVector3f :=
  mkVector (mX rhs * m00 m + mY rhs * m01 m + mZ rhs * m02 m + 1 * m03 m)
           (mX rhs * m10 m + mY rhs * m11 m + mZ rhs * m12 m + 1 * m13 m)
           (mX rhs * m20 m + mY rhs * m21 m + mZ rhs * m22 m + 1 * m23 m).

Definition GetTranslation (m : CTransform4f) := mkVector (m03 m) (m13 m) (m23 m).
Definition GetBackward (m : CTransform4f) := mkVector (m02 m) (m12 m) (m22 m).

Definition GetDeterminant (m : CTransform4f) : real32 :=
  m00 m * (m11 m * m22 m - m12 m * m21 m)
  + m01 m * (m12 m * m20 m - m10 m * m22 m)
  + m02 m * (m10 m * m21 m - m11 m * m20 m).

(** [GetInverse]; the threshold is the binary32 number [0.00001f], that
    is 2748779 / 2^38. *)
Definition GetInverse (m : CTransform4f) : CTransform4f :=
  let determinant := GetDeterminant m in
  if fltb (Qabs determinant) (2748779 # 274877906944) then Identity
  else
    let inverseDet := 1 / determinant in
    let t03 := - ((m12 m * m23 m - m13 m * m22 m) * m01 m
                  - (m02 m * m23 m - m03 m * m22 m) * m11 m
                  + (m02 m * m13 m - m03 m * m12 m) * m21 m) in
    let t13 := ((m12 m * m23 m - m13 m * m22 m) * m00 m
                - (m02 m * m23 m - m03 m * m22 m) * m10 m
                + (m02 m * m13 m - m03 m * m12 m) * m20 m) in
    let t23 := - ((m10 m * m21 m - m11 m * m20 m) * m03 m
                  - (m00 m * m21 m - m01 m * m20 m) * m13 m
                  + (m00 m * m11 m - m01 m * m10 m) * m23 m) in
    mkTransform
      ((m11 m * m22 m - m12 m * m21 m) * inverseDet)
      ((m02 m * m21 m - m01 m * m22 m) * inverseDet)
      ((m01 m * m12 m - m02 m * m11 m) * inverseDet)
      (t03 * inverseDet)
      ((m12 m * m20 m - m10 m * m22 m) * inverseDet)
      ((m00 m * m22 m - m02 m * m20 m) * inverseDet)
      ((m02 m * m10 m - m00 m * m12 m) * inverseDet)
      (t13 * inverseDet)
      ((m10 m * m21 m - m11 m * m20 m) * inverseDet)
      ((m01 m * m20 m - m00 m * m21 m) * inverseDet)
      ((m00 m * m11 m - m01 m * m10 m) * inverseDet)
      (t23 * inverseDet).

End Xf.

Record CColor4f : Type := mkColor { mRed : real32; mGreen : real32; mBlue : real32 }.

Module Col.

Definition Black : CColor4f := mkColor 0 0 0.
Definition White : CColor4f := mkColor 1 1 1.

(** [operator*(real32)]. *)
Definition scale (c : CColor4f) (rhs : real32) : CColor4f :=
  mkColor (mRed c * rhs) (mGreen c * rhs) (mBlue c * rhs).

Definition eqv (l r : CColor4f) : Prop :=
  mRed l == mRed r /\ mGreen l == mGreen r /\ mBlue l == mBlue r.

(** The constructor [CColor4f(uint32_t colorCode)]. *)
Definition FromCode (colorCode : Z) : CColor4f :=
  mkColor (inject_Z (Z.land (Z.shiftr colorCode 16) 255) / 255)
          (inject_Z (Z.land (Z.shiftr colorCode 8) 255) / 255)
          (inject_Z (Z.land (Z.shiftr colorCode 0) 255) / 255).

Definition add (l r : CColor4f) : CColor4f :=
  mkColor (mRed l + mRed r) (mGreen l + mGreen r) (mBlue l + mBlue r).

Definition Lerp (lhs rhs : CColor4f) (t : real32) : CColor4f :=
  add (scale lhs (1 - t)) (scale rhs t).

End Col.

(** ** Render objects *)

Record SSurfaceInfo : Type := mkSurface {
  albedo : real32; metallic : real32; dielectric : real32 }.

Definition defaultSurface : SSurfaceInfo := mkSurface 1 0 0.

(** The data members of the base class [CRenderObject] that take part in
    distance evaluation.  The material binding only serves colour sampling
    and is left out. *)
Record CRenderObjectBase : Type := mkBase {
  mTransform : CTransform4f;
  mInverseTransform : CTransform4f;
  mSurfaceInfo : SSurfaceInfo }.

(** A freshly constructed object: both transforms are the identity. *)
Definition newBase : CRenderObjectBase :=
  mkBase Xf.Identity Xf.Identity defaultSurface.

(** [CRenderObject::SetTransform]. *)
Definition SetTransformBase (b : CRenderObjectBase) (transform : CTransform4f)
  : CRenderObjectBase :=
  mkBase transform (Xf.GetInverse transform) (mSurfaceInfo b).

(** The concrete classes derived from [CRenderObject]; the composites own
    the ordered list [mObjectList] of their children. *)
Inductive CRenderObject : Type :=
| CRenderSphere (base : CRenderObjectBase) (mCenter : CVector3f) (mRadius : real32)
| CRenderPlane (base : CRenderObjectBase) (mNormal : CVector3f) (mHeight : real32)
| CRenderCube (base : CRenderObjectBase) (mSize : CVector3f)
| CRenderCustom (base : CRenderObjectBase) (mCustomFunction : CVector3f -> real32)
| CRenderUnion (base : CRenderObjectBase) (mObjectList : list CRenderObject)
| CRenderIntersection (base : CRenderObjectBase) (mObjectList : list CRenderObject)
| CRenderDifference (base : CRenderObjectBase) (mObjectList : list CRenderObject)
| CRenderSmoothUnion (base : CRenderObjectBase) (mObjectList : list CRenderObject)
                     (mK : real32)
| CRenderBlend (base : CRenderObjectBase) (mObjectList : list CRenderObject)
               (mK : real32).

Definition baseOf (o : CRenderObject) : CRenderObjectBase :=
  match o with
  | CRenderSphere b _ _ | CRenderPlane b _ _ | CRenderCube b _
  | CRenderCustom b _ | CRenderUnion b _ | CRenderIntersection b _
  | CRenderDifference b _ | CRenderSmoothUnion b _ _ | CRenderBlend b _ _ => b
  end.

Definition GetInverseTransform (o : CRenderObject) : CTransform4f :=
  mInverseTransform (baseOf o).

(** [CObjectContainer::operator<<(CTransform4f)], that is [SetTransform]. *)
Definition SetTransform (o : CRenderObject) (t : CTransform4f) : CRenderObject :=
  match o with
  | CRenderSphere b c r => CRenderSphere (SetTransformBase b t) c r
  | CRenderPlane b n h => CRenderPlane (SetTransformBase b t) n h
  | CRenderCube b s => CRenderCube (SetTransformBase b t) s
  | CRenderCustom b f => CRenderCustom (SetTransformBase b t) f
  | CRenderUnion b l => CRenderUnion (SetTransformBase b t) l
  | CRenderIntersection b l => CRenderIntersection (SetTransformBase b t) l
  | CRenderDifference b l => CRenderDifference (SetTransformBase b t) l
  | CRenderSmoothUnion b l k => CRenderSmoothUnion (SetTransformBase b t) l k
  | CRenderBlend b l k => CRenderBlend (SetTransformBase b t) l k
  end.

(** *** The loops of the composites, over the children's transformed
    distances taken in list order. *)

(** [CRenderUnion::GetDistanceToPoint]: the range-for loop. *)
Fixpoint Union_loop (ds : list real32) (minValue : real32) : real32 :=
  match ds with
  | [] => minValue
  | d :: rest => Union_loop rest (NMath.min_val minValue d)
  end.

(** [CRenderIntersection::GetDistanceToPoint]: the range-for loop. *)
Fixpoint Intersection_loop (ds : list real32) (maxValue : real32) : real32 :=
  match ds with
  | [] => maxValue
  | d :: rest => Intersection_loop rest (NMath.max_val maxValue d)
  end.

(** [CRenderDifference::GetDistanceToPoint]: the range-for loop with its
    running [index]. *)
Fixpoint Difference_loop (ds : list real32) (maxValue : real32) (index : Z)
  : real32 :=
  match ds with
  | [] => maxValue
  | d :: rest =>
      let distance := (if (index =? 0)%Z then 1 else -1) * d in
      Difference_loop rest (NMath.max_val maxValue distance) (index + 1)%Z
  end.

(** [CRenderSmoothUnion::SmoothUnion].  The products of the blending term
    are rounded in the source; the properties below use its sign and the
    cases in which it is zero, which rounding keeps. *)
Definition SmoothUnion (d1 d2 k : real32) : real32 :=
  let h := NMath.max_val (k - NMath.AbsF (d1 - d2)) 0 / k in
  NMath.min_val d1 d2 - h * h * h * k * (1 / 6).

(** [CRenderSmoothUnion::GetDistanceToPoint]: the range-for loop. *)
Fixpoint SmoothUnion_loop (ds : list real32) (k : real32) (minValue : real32)
    (index : Z) : real32 :=
  match ds with
  | [] => minValue
  | d :: rest =>
      SmoothUnion_loop rest k
        (if (index =? 0)%Z then d else SmoothUnion minValue d k) (index + 1)%Z
  end.

(** [CRenderBlend::GetDistanceToPoint] on the children's distances.  The
    conversion of a float outside the range of [uint32_t] is modelled by the
    wrap-around the x64 conversion produces. *)
Definition Blend_select (ds : list real32) (mK : real32) : real32 :=
  let lowerPosition := wrap32 (Qfloor mK) in
  let upperPosition := wrap32 (lowerPosition + 1) in
  let d0 :=
    if (0 <=? lowerPosition)%Z && (lowerPosition <? Z.of_nat (length ds))%Z
    then default skLargeNumber (ds !! Z.to_nat lowerPosition)
    else skLargeNumber in
  let d1 :=
    if (0 <=? upperPosition)%Z && (upperPosition <? Z.of_nat (length ds))%Z
    then default skLargeNumber (ds !! Z.to_nat upperPosition)
    else skLargeNumber in
  NMath.lerp d0 d1 (mK - floorf mK).


Section Distance.

(** [_mm_sqrt_ss], the scalar square root. *)
Variable sqrtf : real32 -> real32.

Definition Magnitude (v : CVector3f) : real32 := sqrtf (Vec.Dot v v).

(** [CRenderCube::GetDistanceToPoint]. *)
Definition Cube_distance (mSize point : CVector3f) : real32 :=
  let x := NMath.AbsF (mX point) - mX mSize in
  let y := NMath.AbsF (mY point) - mY mSize in
  let z := NMath.AbsF (mZ point) - mZ mSize in
  let d := Magnitude (mkVector (NMath.max_val x 0) (NMath.max_val y 0)
                               (NMath.max_val z 0)) in
  let du := NMath.max_val
              (NMath.max_val (NMath.min_val x 0) (NMath.min_val y 0))
              (NMath.min_val z 0) in
  d + du.

(** [GetDistanceToPoint], the virtual function, by dynamic type.  A child
    is always evaluated through [GetTransformedDistanceToPoint], that is at
    its own inverse transform applied to the point it is handed. *)
Fixpoint GetDistanceToPoint (o : CRenderObject) (point : CVector3f)
  {struct o} : real32 :=
  let child (at_point : CVector3f) (object : CRenderObject) : real32 :=
    GetDistanceToPoint object (Xf.apply (GetInverseTransform object) at_point) in
  match o with
  | CRenderSphere _ mCenter mRadius =>
      Magnitude (Vec.sub point mCenter) - mRadius
  | CRenderPlane _ mNormal mHeight => Vec.Dot mNormal point - mHeight
  | CRenderCube _ mSize => Cube_distance mSize point
  | CRenderCustom _ mCustomFunction => mCustomFunction point
  | CRenderUnion _ mObjectList =>
      Union_loop (map (child point) mObjectList) skLargeNumber
  | CRenderIntersection _ mObjectList =>
      Intersection_loop (map (child point) mObjectList) 0
  | CRenderDifference _ mObjectList =>
      Difference_loop (map (child point) mObjectList) 0 0
  | CRenderSmoothUnion _ mObjectList mK =>
      SmoothUnion_loop (map (child point) mObjectList) mK skLargeNumber 0
  | CRenderBlend b mObjectList mK =>
      Blend_select
        (map (child (Xf.apply (mInverseTransform b) point)) mObjectList) mK
  end.

(** [CRenderObject::GetTransformedDistanceToPoint]. *)
Definition GetTransformedDistanceToPoint (o : CRenderObject)
    (point : CVector3f) : real32 :=
  GetDistanceToPoint o (Xf.apply (GetInverseTransform o) point).

End Distance.

(** ** Lights *)

Inductive CLightObject : Type :=
| CAmbientLightObject (mColor : CColor4f)
| CPointLightObject (mPosition : CVector3f) (mColor : CColor4f)
| CDirectionalLightObject (mDirection : CVector3f) (mColor : CColor4f).

Definition CastsShadow (l : CLightObject) : bool :=
  match l with
  | CAmbientLightObject _ => false
  | CPointLightObject _ _ => true
  | CDirectionalLightObject _ _ => false
  end.

Definition GetPosition (l : CLightObject) : CVector3f :=
  match l with
  | CAmbientLightObject _ => Vec.Zero
  | CPointLightObject mPosition _ => mPosition
  | CDirectionalLightObject _ _ => Vec.Zero
  end.

Section Normalize.

(** [_mm_rsqrt_ss], the approximate reciprocal square root. *)
Variable rsqrt_ss : real32 -> real32.

(** [CVector3f::AsNormalized]: the approximation refined by one
    Newton-Raphson step. *)
Definition AsNormalized (v : CVector3f) : CVector3f :=
  let dotProduct := Vec.Dot v v in
  let inverseMagnitude := rsqrt_ss dotProduct in
  let magSquared := dotProduct in
  let halfVal := (1 # 2) * magSquared in
  let inverseMagnitude :=
    inverseMagnitude * ((3 # 2) - inverseMagnitude * inverseMagnitude * halfVal) in
  Vec.scale v inverseMagnitude.

(** The constructor [CDirectionalLightObject(direction, color)] stores the
    normalized direction. *)
Definition directionallight (direction : CVector3f) (color : CColor4f)
  : CLightObject :=
  CDirectionalLightObject (AsNormalized direction) color.

(** [CLightObject::CalculateValueAtPosition], by dynamic type. *)
Definition CalculateValueAtPosition (l : CLightObject)
    (position surfaceNormal : CVector3f) : CColor4f :=
  match l with
  | CAmbientLightObject mColor => mColor
  | CPointLightObject mPosition mColor =>
      let direction := AsNormalized (Vec.sub mPosition position) in
      let angle := Vec.Dot surfaceNormal direction in
      if fltb angle 0 then Col.Black else Col.scale mColor angle
  | CDirectionalLightObject mDirection mColor =>
      let angle := Vec.Dot surfaceNormal mDirection in
      if fltb angle 0 then Col.Black else Col.scale mColor angle
  end.

End Normalize.

(** ** Rays, camera and scene *)

Record CInfiniteRay : Type := mkRay {
  mPosition : CVector3f; mDirection : CVector3f }.

Definition GetPositionAlongRay (ray : CInfiniteRay) (time : real32) : CVector3f :=
  Vec.add (mPosition ray) (Vec.scale (mDirection ray) time).

Record CRayResult : Type := mkRayResult {
  mCollisionPoint : CVector3f; mTime : real32; mHit : bool }.

Definition skDefaultWidth : Z := 640.
Definition skDefaultHeight : Z := 480.
Definition gkPi32 : real32 := 3141592653589793 # 1000000000000000.

Record CCamera : Type := mkCamera {
  mCameraTransform : CTransform4f;
  mSceneWidth : Z;
  mSceneHeight : Z;
  mCameraScale : real32;
  mCameraFOV : real32;
  mVerticalFOV : bool }.

Section Camera.

Variable rsqrt_ss : real32 -> real32.
Variable tanf : real32 -> real32.

(** [CCamera::CalculateParameters].  The quotient by a scene width or height
    of zero is an IEEE infinity in the source; the rational quotient has no
    meaning there and no property below reads [mCameraScale].  Nor does one
    read the three axes: they are rounded in the source, and for a look
    direction along the world's up axis they are NaN there. *)
Definition CalculateParameters (c : CCamera)
    (cameraCenter cameraLookAt : CVector3f) (cameraFOV : real32)
    (verticalFOV : bool) : CCamera :=
  let worldUp := Vec.Up in
  let fovScale := tanf (cameraFOV * ((gkPi32 / 180) / 2)) * 2 in
  let scale :=
    if verticalFOV then fovScale / inject_Z (mSceneHeight c)
    else fovScale / inject_Z (mSceneWidth c) in
  let cameraForward := AsNormalized rsqrt_ss (Vec.sub cameraLookAt cameraCenter) in
  let cameraRight :=
    AsNormalized rsqrt_ss (Vec.CrossProductWith cameraForward worldUp) in
  let cameraUp := Vec.CrossProductWith cameraRight cameraForward in
  mkCamera (Xf.FromVectors cameraRight cameraUp cameraForward cameraCenter)
           (mSceneWidth c) (mSceneHeight c) scale (mCameraFOV c) (mVerticalFOV c).

(** The constructor [CCamera(center, lookAt, fov, verticalFOV)]. *)
Definition camera (cameraCenter cameraLookAt : CVector3f) (cameraFOV : real32)
    (verticalFOV : bool) : CCamera :=
  CalculateParameters
    (mkCamera Xf.Identity skDefaultWidth skDefaultHeight 1 cameraFOV verticalFOV)
    cameraCenter cameraLookAt cameraFOV verticalFOV.

Definition DefaultCamera : CCamera :=
  camera Vec.Zero (mkVector 0 0 1) 45 false.

(** [CCamera::SetSceneSize]. *)
Definition Camera_SetSceneSize (c : CCamera) (sceneWidth sceneHeight : Z)
  : CCamera :=
  let c' := mkCamera (mCameraTransform c) sceneWidth sceneHeight
                     (mCameraScale c) (mCameraFOV c) (mVerticalFOV c) in
  CalculateParameters c'
    (Xf.GetTranslation (mCameraTransform c'))
    (Vec.add (Xf.GetTranslation (mCameraTransform c'))
             (Xf.GetBackward (mCameraTransform c')))
    (mCameraFOV c') (mVerticalFOV c').

End Camera.

Record CRenderScene : Type := mkScene {
  mCamera : CCamera;
  mObjects : list CRenderObject;
  mLights : list CLightObject }.

(** ** Binary32 rounding *)

Module Binary32.

(** The binade of a positive rational [x]: the [e] with
    [2^e <= x < 2^(e+1)]. *)
Definition exponent (x : Q) : Z :=
  let e0 := (Z.log2 (Qnum x) - Z.log2 (Zpos (Qden x)))%Z in
  if Qle_bool (2 ^ e0) x then e0 else (e0 - 1)%Z.

(** The distance between neighbouring binary32 numbers at a positive [x]:
    24 significant bits, and the subnormal spacing [2^-149] below
    [2^-126]. *)
Definition ulp (x : Q) : Q := 2 ^ (Z.max (exponent x) (-126) - 23).

(** The nearest integer, a tie going to the even one. *)
Definition nearest_even (q : Q) : Z :=
  let f := Qfloor q in
  match (q - inject_Z f ?= 1 # 2)%Q with
  | Lt => f
  | Gt => (f + 1)%Z
  | Eq => if Z.even f then f else (f + 1)%Z
  end.

Definition round_pos (x : Q) : Q := inject_Z (nearest_even (x / ulp x)) * ulp x.

(** Rounding to the nearest binary32 number, ties to even, the default
    mode.  The overflow to an infinity from [2^128] on is not modelled. *)
Definition round (x : Q) : Q :=
  match (x ?= 0)%Q with
  | Eq => 0
  | Gt => round_pos x
  | Lt => - round_pos (- x)
  end.

(** [addss]: the binary32 sum of two binary32 numbers. *)
Definition add (a b : real32) : real32 := round (a + b).

End Binary32.

(** ** The ray marcher *)

(** [GetMinDistanceAtPoint]: the range-for loop over the distances of the
    top-level objects. *)
Fixpoint MinDistance_loop (ds : list real32) (time : real32) : real32 :=
  match ds with
  | [] => time
  | d :: rest => MinDistance_loop rest (NMath.min_val time d)
  end.

(** An IEEE scalar that may be one of the special values: the quotient in
    [MarchShadowRay] divides by [time], which is zero in the first
    iteration. *)
Inductive xreal32 : Type :=
| XFin (q : real32)
| XPosInf
| XNegInf
| XNaN.

(** IEEE division of two finite scalars; the zero divisor here is the
    positive zero [time] starts from. *)
Definition xdiv (a b : real32) : xreal32 :=
  if Qeq_bool b 0 then
    match a ?= 0 with
    | Gt => XPosInf
    | Lt => XNegInf
    | Eq => XNaN
    end
  else XFin (a / b).

(** IEEE [lhs < rhs]: false as soon as one side is NaN. *)
Definition xltb (lhs rhs : xreal32) : bool :=
  match lhs, rhs with
  | XNaN, _ | _, XNaN => false
  | XFin a, XFin b => fltb a b
  | XNegInf, XNegInf => false
  | XNegInf, _ => true
  | _, XNegInf => false
  | XPosInf, _ => false
  | XFin _, XPosInf => true
  end.

(** [NMath::min_val] at such scalars. *)
Definition min_val_x (lhs rhs : xreal32) : xreal32 :=
  if xltb lhs rhs then lhs else rhs.

Section March.

Variable sqrtf : real32 -> real32.
Variable scene : CRenderScene.

(** [CRenderScene::GetMinDistanceAtPoint]. *)
Definition GetMinDistanceAtPoint (point : CVector3f) : real32 :=
  MinDistance_loop
    (map (fun pObject => GetTransformedDistanceToPoint sqrtf pObject point)
         (mObjects scene))
    skLargeNumber.

Variable ray : CInfiniteRay.
Variable maxLength : real32.

(** The [while] loop of [CRenderScene::MarchRay]; one unit of [fuel] is
    spent on each evaluation of the loop condition.  [count] is the
    [int32_t] counter, incremented only when the first disjunct of the exit
    test is false. *)
Fixpoint MarchRay_loop (fuel : nat) (time : real32) (count : Z)
    (minDistance : real32) : option CRayResult :=
  match fuel with
  | O => None
  | S fuel' =>
      if fltb time maxLength then
        let currentPoint := GetPositionAlongRay ray time in
        let distanceToNearestObject := GetMinDistanceAtPoint currentPoint in
        let minDistance := NMath.min_val minDistance distanceToNearestObject in
        if fltb (Qabs distanceToNearestObject) skMinLength
        then Some (mkRayResult currentPoint time true)
        else if (count >? 200)%Z
        then Some (mkRayResult currentPoint time true)
        else MarchRay_loop fuel' (time + distanceToNearestObject)
                           (count + 1)%Z minDistance
      else Some (mkRayResult Vec.Zero minDistance false)
  end.

(** [CRenderScene::MarchRay]. *)
Definition MarchRay (fuel : nat) : option CRayResult :=
  MarchRay_loop fuel skMinLength 0 skLargeNumber.


Variable penumbra : real32.

(** The sum of two [real32] values as the build computes it. *)
Variable addf : real32 -> real32 -> real32.

(** The [while] loop of [CRenderScene::MarchShadowRay]; the loop has no
    counter, and [time += distanceToNearestObject] is the rounded sum. *)
Fixpoint MarchShadowRay_loop (fuel : nat) (shadow : xreal32) (time : real32)
  : option xreal32 :=
  match fuel with
  | O => None
  | S fuel' =>
      if fltb time maxLength then
        let currentPoint := GetPositionAlongRay ray time in
        let distanceToNearestObject := GetMinDistanceAtPoint currentPoint in
        if fltb distanceToNearestObject skMinLength
        then Some (XFin 0)
        else
          MarchShadowRay_loop fuel'
            (min_val_x shadow (xdiv (penumbra * distanceToNearestObject) time))
            (addf time distanceToNearestObject)
      else Some shadow
  end.

(** [CRenderScene::MarchShadowRay]. *)
Definition MarchShadowRay (fuel : nat) : option xreal32 :=
  MarchShadowRay_loop fuel (XFin 1) 0.

(** The points the shadow loop samples: the pairs of [time] and scene
    distance of the iterations it runs, in order. *)
Fixpoint ShadowSamples (fuel : nat) (time : real32) : list (real32 * real32) :=
  match fuel with
  | O => []
  | S fuel' =>
      if fltb time maxLength then
        let distanceToNearestObject :=
          GetMinDistanceAtPoint (GetPositionAlongRay ray time) in
        if fltb distanceToNearestObject skMinLength
        then [(time, distanceToNearestObject)]
        else (time, distanceToNearestObject)
               :: ShadowSamples fuel' (addf time distanceToNearestObject)
      else []
  end.

End March.

(** Iterations that suffice for the shadow loop when every iteration that
    continues advances [time] by at least [delta]. *)
Definition ShadowFuel (delta maxLength : real32) : nat :=
  S (Z.to_nat (Qceiling (maxLength / delta))).

(** ** The renderer

    The state of [CRenderer] as one thread sees it between two calls.  The
    worker threads are not part of the state: [mSleepControl] counts the
    [notify_all] calls made on the condition variable, and the heap array
    behind [mBuffer] is the list of its cells (empty for the null pointer). *)

Module Render.

Record SWorkArea : Type := mkWorkArea {
  mMinX : Z; mMinY : Z; mMaxX : Z; mMaxY : Z; mJobDone : bool }.

Record CRenderer : Type := mkRenderer {
  mBufferWidth : Z;
  mBufferHeight : Z;
  mTime : real32;
  mBuffer : list CColor4f;
  mScene : CRenderScene;
  mWorkAreas : list SWorkArea;
  mCurrentWorkArea : Z;
  mShutdown : bool;
  mSleepControl : nat }.

Definition set_buffer (r : CRenderer) (b : list CColor4f) : CRenderer :=
  mkRenderer (mBufferWidth r) (mBufferHeight r) (mTime r) b (mScene r)
             (mWorkAreas r) (mCurrentWorkArea r) (mShutdown r) (mSleepControl r).

Definition set_scene (r : CRenderer) (s : CRenderScene) : CRenderer :=
  mkRenderer (mBufferWidth r) (mBufferHeight r) (mTime r) (mBuffer r) s
             (mWorkAreas r) (mCurrentWorkArea r) (mShutdown r) (mSleepControl r).

Definition set_jobs (r : CRenderer) (areas : list SWorkArea) (cursor : Z)
  : CRenderer :=
  mkRenderer (mBufferWidth r) (mBufferHeight r) (mTime r) (mBuffer r) (mScene r)
             areas cursor (mShutdown r) (mSleepControl r).

Definition notify_all (r : CRenderer) : CRenderer :=
  mkRenderer (mBufferWidth r) (mBufferHeight r) (mTime r) (mBuffer r) (mScene r)
             (mWorkAreas r) (mCurrentWorkArea r) (mShutdown r)
             (S (mSleepControl r)).

Definition job_done (w : SWorkArea) : SWorkArea :=
  mkWorkArea (mMinX w) (mMinY w) (mMaxX w) (mMaxY w) true.

(** [for (uint32_t v = from; v < to; v += step) body], threading the state
    [s]; [None] is undefined behaviour in the body, or a loop that needs
    more than [fuel] iterations. *)
Fixpoint for_u32 {St : Type} (fuel : nat) (v to step : Z)
    (body : Z -> St -> option St) (s : St) : option St :=
  if (v <? to)%Z then
    match fuel with
    | O => None
    | S fuel' =>
        match body v s with
        | Some s' => for_u32 fuel' (wrap32 (v + step)) to step body s'
        | None => None
        end
    end
  else Some s.

(** [CRenderer::IsDone]: the range-for loop. *)
Fixpoint IsDone_loop (areas : list SWorkArea) : bool :=
  match areas with
  | [] => true
  | workArea :: rest =>
      if negb (mJobDone workArea) then false else IsDone_loop rest
  end.

Definition IsDone (r : CRenderer) : bool := IsDone_loop (mWorkAreas r).

(** [CRenderer::SetPixelColor].  The index is computed in [uint32_t]; a store
    outside the allocated array is undefined behaviour, [None]. *)
Definition SetPixelColor (x y : Z) (color : CColor4f) (r : CRenderer)
  : option CRenderer :=
  if (x <? mBufferWidth r)%Z && (y <? mBufferHeight r)%Z then
    let index := wrap32 (y * mBufferWidth r + x) in
    if (index <? Z.of_nat (length (mBuffer r)))%Z
    then Some (set_buffer r (<[ Z.to_nat index := color ]> (mBuffer r)))
    else None
  else Some r.


(** The marking loop of [CRenderer::Cancel]. *)
Fixpoint Cancel_loop (fuel : nat) (r : CRenderer) : CRenderer :=
  match fuel with
  | O => r
  | S fuel' =>
      if (mCurrentWorkArea r <? Z.of_nat (length (mWorkAreas r)))%Z then
        Cancel_loop fuel'
          (set_jobs r
             (alter job_done (Z.to_nat (mCurrentWorkArea r)) (mWorkAreas r))
             (wrap32 (mCurrentWorkArea r + 1)))
      else r
  end.

(** [CRenderer::Cancel].  The final loop yields until the workers have
    finished the tiles they hold; in this one-thread view the call returns
    exactly when no tile is left unfinished after the marking. *)
Definition Cancel (r : CRenderer) : option CRenderer :=
  let r1 := Cancel_loop (length (mWorkAreas r)) r in
  if IsDone r1 then Some r1 else None.

Section Renderer.

Variable sqrtf : real32 -> real32.
Variable rsqrt_ss : real32 -> real32.
Variable tanf : real32 -> real32.

(** [std::thread::hardware_concurrency()] and the build's
    [skJobCoreMultiplier] (5 with [NDEBUG], 50 without). *)
Variable hardware_concurrency : Z.
Variable skJobCoreMultiplier : Z.

(** [NScene::BuildScene], the scene description included from
    [RenderScene.inl]. *)
Variable BuildScene : CRenderScene -> real32 -> CRenderScene.

(** [CRenderScene::DoIntersection(x, y)], the colour of a pixel. *)
Variable DoIntersection : CRenderScene -> Z -> Z -> CColor4f.

(** [CRenderScene::Reset]. *)
Definition Reset (s : CRenderScene) : CRenderScene :=
  mkScene (DefaultCamera rsqrt_ss tanf) [] [].

(** [CRenderScene::SetSceneSize]. *)
Definition SetSceneSize (s : CRenderScene) (width height : Z) : CRenderScene :=
  mkScene (Camera_SetSceneSize rsqrt_ss tanf (mCamera s) width height)
          (mObjects s) (mLights s).

(** [CRenderer::Update]. *)
Definition Update (deltaTime : real32) (r : CRenderer) : CRenderer :=
  if IsDone r then
    let time := mTime r + deltaTime in
    let scene := BuildScene (Reset (mScene r)) time in
    mkRenderer (mBufferWidth r) (mBufferHeight r) time (mBuffer r)
               (SetSceneSize scene (mBufferWidth r) (mBufferHeight r))
               (mWorkAreas r) (mCurrentWorkArea r) (mShutdown r)
               (mSleepControl r)
  else r.

(** [CRenderer::RenderScene]. *)
Definition RenderScene (r : CRenderer) : option CRenderer :=
  if IsDone r then
    let jobCount := wrap32 (hardware_concurrency * skJobCoreMultiplier) in
    let edgeJobCount :=
      wrap32 (Qfloor (NMath.max_val (sqrtf (inject_Z jobCount)) 1)) in
    let hStepSize := NMath.max_val_u 1 (mBufferWidth r / edgeJobCount) in
    let vStepSize := NMath.max_val_u 1 (mBufferHeight r / edgeJobCount) in
    match
      for_u32 (Z.to_nat (mBufferHeight r)) 0 (mBufferHeight r) vStepSize
        (fun y areas =>
           for_u32 (Z.to_nat (mBufferWidth r)) 0 (mBufferWidth r) hStepSize
             (fun x areas =>
                Some (areas ++
                      [mkWorkArea x y
                         (NMath.min_val_u (mBufferWidth r) (wrap32 (x + hStepSize)))
                         (NMath.min_val_u (mBufferHeight r) (wrap32 (y + vStepSize)))
                         false]))
             areas)
        []
    with
    | Some areas => Some (notify_all (set_jobs r areas 0))
    | None => None
    end
  else Some r.

(** [CRenderer::ResizeBuffer].  The new array is filled cell by cell; the
    cells of the fresh allocation are modelled as black until then. *)
Definition ResizeBuffer (width height : Z) (r : CRenderer) : option CRenderer :=
  match (if negb (IsDone r) then Cancel r else Some r) with
  | None => None
  | Some r1 =>
      match
        if negb (width =? mBufferWidth r1)%Z || negb (height =? mBufferHeight r1)%Z
        then
          let r2 :=
            mkRenderer width height (mTime r1)
                       (replicate (Z.to_nat (width * height)) Col.Black)
                       (mScene r1) (mWorkAreas r1) (mCurrentWorkArea r1)
                       (mShutdown r1) (mSleepControl r1) in
          for_u32 (Z.to_nat width) 0 width 1
            (fun x r =>
               for_u32 (Z.to_nat height) 0 height 1
                 (fun y r =>
                    SetPixelColor x y (mkColor (1 # 2) (3 # 5) (7 # 10)) r)
                 r)
            r2
        else Some r1
      with
      | None => None
      | Some r3 => Some (set_scene r3 (SetSceneSize (mScene r3) width height))
      end
  end.

(** The pixel loops a worker thread runs on one tile. *)
Definition ProcessWorkArea (workArea : SWorkArea) (r : CRenderer)
  : option CRenderer :=
  let stepSize := skInitialStepSize in
  for_u32 (Z.to_nat (mMaxY workArea - mMinY workArea))
    (mMinY workArea) (mMaxY workArea) stepSize
    (fun y r =>
       for_u32 (Z.to_nat (mMaxX workArea - mMinX workArea))
         (mMinX workArea) (mMaxX workArea) stepSize
         (fun x r =>
            let color := DoIntersection (mScene r) x y in
            for_u32 (Z.to_nat stepSize) 0 stepSize 1
              (fun i r =>
                 for_u32 (Z.to_nat stepSize) 0 stepSize 1
                   (fun j r =>
                      SetPixelColor (wrap32 (x + i)) (wrap32 (y + j)) color r)
                   r)
              r)
         r)
    r.


Definition LOWORD (l : Z) : Z := Z.land l 65535.
Definition HIWORD (l : Z) : Z := Z.land (Z.shiftr l 16) 65535.

(** The [WM_SIZE] case of [WndProc], up to the creation of the bitmap. *)
Definition OnSize (lParam : Z) (r : CRenderer) : option CRenderer :=
  match Cancel r with
  | None => None
  | Some r1 =>
      if IsDone r1 then
        let bufferWidth := wrap32 (Z.land (LOWORD lParam + 3) (Z.lnot 3)) in
        let bufferHeight := wrap32 (HIWORD lParam) in
        if negb (bufferWidth =? 0)%Z && negb (bufferHeight =? 0)%Z
        then ResizeBuffer bufferWidth bufferHeight r1
        else Some r1
      else None
  end.

End Renderer.

End Render.

(** ** Concrete scenes used in the examples below *)

(** An integer square root, exact on perfect squares: a stand-in for the
    hardware square root on such arguments. *)
Definition isqrtf (x : real32) : real32 := inject_Z (Z.sqrt (Qfloor x)).

(** [NScene::cube(size)] and [NScene::sphere(radius)]: the constructors
    [CRenderCube(size)], which stores half the edge, and
    [CRenderSphere(radius)]. *)
Definition cube (size : real32) : CRenderObject :=
  CRenderCube newBase
    (mkVector (size * (1 # 2)) (size * (1 # 2)) (size * (1 # 2))).

Definition sphere (radius : real32) : CRenderObject :=
  CRenderSphere newBase Vec.Zero radius.

(** The plane [x = 0], facing the positive x axis. *)
Definition plane_x : CRenderObject := CRenderPlane newBase (mkVector 1 0 0) 0.

(** [blend({ plane, plane }, 0) << translate(1, 0, 0)]. *)
Definition blend_translated : CRenderObject :=
  SetTransform (CRenderBlend newBase [plane_x; plane_x] 0) (Xf.Translate 1 0 0).

(** A camera that is never consulted by the marcher. *)
Definition idle_camera : CCamera :=
  mkCamera Xf.Identity skDefaultWidth skDefaultHeight 1 45 false.

(** A scene without objects, and one whose only object is at the constant
    distance [skMinLength] from every point. *)
Definition empty_scene : CRenderScene := mkScene idle_camera [] [].

Definition fog_scene : CRenderScene :=
  mkScene idle_camera [CRenderCustom newBase (fun _ => skMinLength)] [].

Definition ray_z : CInfiniteRay := mkRay Vec.Zero (mkVector 0 0 1).


(** A wall, and a ray that runs along it at distance 1. *)
Definition wall_scene : CRenderScene := mkScene idle_camera [plane_x] [].

Definition ray_along_wall : CInfiniteRay :=
  mkRay (mkVector 1 0 0) (mkVector 0 0 1).

(** The representation invariant of the pixel buffer: the dimensions are
    [uint32_t] values and the array holds one cell per pixel. *)
Definition BufferOk (r : Render.CRenderer) : Prop :=
  (0 <= Render.mBufferWidth r < 2 ^ 32)%Z
  /\ (0 <= Render.mBufferHeight r < 2 ^ 32)%Z
  /\ Z.of_nat (length (Render.mBuffer r))
     = (Render.mBufferWidth r * Render.mBufferHeight r)%Z.

(** The corners of a tile are [uint32_t] values. *)
Definition TileOk (w : Render.SWorkArea) : Prop :=
  (0 <= Render.mMinX w)%Z /\ (Render.mMaxX w < 2 ^ 32)%Z
  /\ (0 <= Render.mMinY w)%Z /\ (Render.mMaxY w < 2 ^ 32)%Z.

(** What a worker's writes must preserve. *)
Definition SameBuffer (r r' : Render.CRenderer) : Prop :=
  Render.mBufferWidth r' = Render.mBufferWidth r
  /\ Render.mBufferHeight r' = Render.mBufferHeight r
  /\ length (Render.mBuffer r') = length (Render.mBuffer r).

(** The buffer dimensions the [WM_SIZE] handler derives from [lParam]. *)
Definition size_of_lParam (lParam : Z) : Z * Z :=
  (wrap32 (Z.land (Render.LOWORD lParam + 3) (Z.lnot 3)),
   wrap32 (Render.HIWORD lParam)).

(** A 2 x 2 renderer with a finished frame, and one with a tile in
    flight. *)
Definition small_scene : CRenderScene :=
  mkScene (mkCamera Xf.Identity 2 2 1 45 false) [] [].

Definition idle_renderer : Render.CRenderer :=
  Render.mkRenderer 2 2 0 (replicate 4 Col.White) small_scene
                    [Render.mkWorkArea 0 0 2 2 true] 1 false 1.

Definition busy_renderer : Render.CRenderer :=
  Render.mkRenderer 2 2 0 (replicate 4 Col.White) small_scene
                    [Render.mkWorkArea 0 0 2 2 false] 1 false 1.

(** ** Helpers of the scene description ([namespace NScene]) *)

Module NScene.

(** [NScene::clamp(minValue, value, maxValue)], which hands its arguments
    to [NMath::clamp] in this order. *)
Definition clamp (minValue value maxValue : real32) : real32 :=
  NMath.clamp minValue value maxValue.

End NScene.

(** ** The object hit by a ray *)

Section Closest.

Variable sqrtf : real32 -> real32.



End Closest.

(** ** Materials *)

Module Material.

(** The data members of the base class [CMaterialObject]. *)
Record Base : Type := mkBase {
  mTransform : CTransform4f;
  mInverseTransform : CTransform4f }.

Definition newBase : Base := mkBase Xf.Identity Xf.Identity.

(** [CMaterialObject::SetTransform]. *)
Definition SetTransform (b : Base) (transform : CTransform4f) : Base :=
  mkBase transform (Xf.GetInverse transform).

(** The classes derived from [CMaterialObject]. *)
Inductive CMaterialObject : Type :=
| CColorMaterialObject (base : Base) (mColor : CColor4f)
| CCheckerMaterialObject (base : Base) (mColor0 mColor1 : CColor4f)
| CGradientMaterialObject (base : Base) (mColor0 mColor1 : CColor4f)
| CCustomMaterialObject (base : Base) (mCustomFunction : CVector3f -> CColor4f).

Definition baseOf (m : CMaterialObject) : Base :=
  match m with
  | CColorMaterialObject b _ | CCheckerMaterialObject b _ _
  | CGradientMaterialObject b _ _ | CCustomMaterialObject b _ => b
  end.

(** [CCheckerMaterialObject::GetColorAtPoint].  The three floors are
    converted to [int32_t] and added; only the lowest bit of the sum is
    read, which a 32-bit wrap-around of the sum does not change. *)
Definition Checker_color (mColor0 mColor1 : CColor4f) (point : CVector3f)
  : CColor4f :=
  let sum := (Qfloor (mX point) + Qfloor (mY point) + Qfloor (mZ point))%Z in
  if (Z.land sum 1 =? 0)%Z then mColor0 else mColor1.

Section Sampling.

Variable sqrtf : real32 -> real32.

(** [CGradientMaterialObject::GetColorAtPoint]. *)
Definition Gradient_color (mColor0 mColor1 : CColor4f) (point : CVector3f)
  : CColor4f :=
  let distanceFromCenter := Magnitude sqrtf point in
  let phase := distanceFromCenter - floorf distanceFromCenter in
  Col.Lerp mColor0 mColor1 phase.

(** [GetColorAtPoint], the virtual function, by dynamic type. *)
Definition GetColorAtPoint (m : CMaterialObject) (point : CVector3f) : CColor4f :=
  match m with
  | CColorMaterialObject _ mColor => mColor
  | CCheckerMaterialObject _ mColor0 mColor1 => Checker_color mColor0 mColor1 point
  | CGradientMaterialObject _ mColor0 mColor1 =>
      Gradient_color mColor0 mColor1 point
  | CCustomMaterialObject _ mCustomFunction => mCustomFunction point
  end.

(** [CMaterialObject::GetTransformedColorAtPoint]. *)
Definition GetTransformedColorAtPoint (m : CMaterialObject) (point : CVector3f)
  : CColor4f :=
  GetColorAtPoint m (Xf.apply (mInverseTransform (baseOf m)) point).

End Sampling.

End Material.

Section CameraRays.

Variable rsqrt_ss : real32 -> real32.


End CameraRays.

(** ** The buffer seen as an image *)

(** The buffer cell of the pixel [(x, y)]. *)
Definition pixel (r : Render.CRenderer) (x y : Z) : option CColor4f :=
  Render.mBuffer r !! Z.to_nat (y * Render.mBufferWidth r + x).

(** [s] is [r] with the pixels of [region] painted with [image], and
    nothing else changed: neither another pixel of the buffer nor another
    member of the renderer. *)
Definition Painted (region : Z -> Z -> bool) (image : Z -> Z -> CColor4f)
    (r s : Render.CRenderer) : Prop :=
  s = Render.set_buffer r (Render.mBuffer s)
  /\ length (Render.mBuffer s) = length (Render.mBuffer r)
  /\ forall x y,
       (0 <= x < Render.mBufferWidth r)%Z ->
       (0 <= y < Render.mBufferHeight r)%Z ->
       pixel s x y = if region x y then Some (image x y) else pixel r x y.

(** The pixels of a tile. *)
Definition in_tile (w : Render.SWorkArea) (x y : Z) : bool :=
  (Render.mMinX w <=? x)%Z && (x <? Render.mMaxX w)%Z
  && (Render.mMinY w <=? y)%Z && (y <? Render.mMaxY w)%Z.

(** The colour [ResizeBuffer] fills a new buffer with. *)
Definition fill_color : CColor4f := mkColor (1 # 2) (3 # 5) (7 # 10).


(** ** A frame from start to finish *)

(** The values the loop variable of
    [for (uint32_t v = from; v < to; v += step)] takes when the increment
    does not wrap around. *)
Fixpoint strides (fuel : nat) (v to step : Z) : list Z :=
  if (v <? to)%Z then
    match fuel with
    | O => []
    | S fuel' => v :: strides fuel' (v + step)%Z to step
    end
  else [].


(** A renderer whose first tile is finished and whose second tile has not
    been handed out. *)
Definition half_done_renderer : Render.CRenderer :=
  Render.mkRenderer 2 2 0 (replicate 4 Col.White) small_scene
                    [Render.mkWorkArea 0 0 1 2 true;
                     Render.mkWorkArea 1 0 2 2 false] 1 false 1.

(** The tile list [CRenderer::RenderScene] builds for a [width] x [height]
    buffer cut in steps of [hStepSize] and [vStepSize], row after row. *)
Definition grid (width height hStepSize vStepSize : Z) : list Render.SWorkArea :=
  flat_map
    (fun y =>
       flat_map
         (fun x =>
            [Render.mkWorkArea x y
               (NMath.min_val_u width (wrap32 (x + hStepSize)))
               (NMath.min_val_u height (wrap32 (y + vStepSize)))
               false])
         (strides (Z.to_nat width) 0 width hStepSize))
    (strides (Z.to_nat height) 0 height vStepSize).

(** ** Presenting the buffer *)

(** [static_cast<uint8_t>(v)] of a floating-point value: the value is
    truncated toward zero, and the conversion is undefined, [None], when
    the truncated value is not a [uint8_t]. *)
Definition to_uint8 (v : real32) : option Z :=
  let truncated := if fltb v 0 then Qceiling v else Qfloor v in
  if (0 <=? truncated)%Z && (truncated <? 256)%Z then Some truncated else None.

(** The byte the [WM_PAINT] handler computes for a colour channel. *)
Definition channel_byte (channel : real32) : option Z :=
  to_uint8 (NMath.min_val 1 channel * 255).

(** A store to [gBitmapBuffer], an array of [uint8_t]; a store outside the
    array is undefined. *)
Definition store_byte (position value : Z) (bitmap : list Z)
  : option (list Z) :=
  if (position <? Z.of_nat (length bitmap))%Z
  then Some (<[ Z.to_nat position := value ]> bitmap)
  else None.

(** The conversion loops of the [WM_PAINT] case of [WndProc]
    ([SHOW_RENDER_PROGRESS()] is 1, so that they run whether or not the
    frame is done). *)
Definition OnPaint_convert (r : Render.CRenderer) (gBitmapBuffer : list Z)
  : option (list Z) :=
  Render.for_u32 (Z.to_nat (Render.mBufferHeight r)) 0
    (Render.mBufferHeight r) 1
    (fun y bitmap =>
       let voffset := wrap32 (y * Render.mBufferWidth r) in
       Render.for_u32 (Z.to_nat (Render.mBufferWidth r)) 0
         (Render.mBufferWidth r) 1
         (fun x bitmap =>
            match Render.mBuffer r !! Z.to_nat (wrap32 (voffset + x)) with
            | Some color =>
                let bitmapPosition := wrap32 (wrap32 (voffset + x) * 4) in
                match channel_byte (mBlue color),
                      channel_byte (mGreen color),
                      channel_byte (mRed color) with
                | Some blue, Some green, Some red =>
                    match store_byte (wrap32 (bitmapPosition + 0)) blue
                                     bitmap with
                    | Some bitmap1 =>
                        match store_byte (wrap32 (bitmapPosition + 1)) green
                                         bitmap1 with
                        | Some bitmap2 =>
                            store_byte (wrap32 (bitmapPosition + 2)) red
                                       bitmap2
                        | None => None
                        end
                    | None => None
                    end
                | _, _, _ => None
                end
            | None => None
            end)
         bitmap)
    gBitmapBuffer.

(** The bitmap once the first [n] pixels of the buffer are converted: four
    bytes per pixel, blue, green and red in this order, the fourth byte and
    all later pixels as they were. *)
Definition Presented (buffer : list CColor4f) (old : list Z) (n : Z)
    (bitmap : list Z) : Prop :=
  length bitmap = length old
  /\ (forall i c, buffer !! i = Some c -> (Z.of_nat i < n)%Z ->
        bitmap !! (4 * i)%nat = channel_byte (mBlue c)
        /\ bitmap !! (4 * i + 1)%nat = channel_byte (mGreen c)
        /\ bitmap !! (4 * i + 2)%nat = channel_byte (mRed c))
  /\ (forall j, (4 * n <= Z.of_nat j)%Z \/ (Z.of_nat j mod 4 = 3)%Z ->
        bitmap !! j = old !! j).

(** The colours of a buffer have no negative channel. *)
Definition NonNegative (c : CColor4f) : Prop :=
  0 <= mRed c /\ 0 <= mGreen c /\ 0 <= mBlue c.
(** * Properties *)

(** ** Comparisons, minimum and maximum *)

Lemma fltb_lt (x y : real32) : fltb x y = true <-> x < y.
Proof.
  unfold fltb. rewrite Qlt_alt.
  destruct (x ?= y); split; congruence.
Qed.

Lemma fltb_ge (x y : real32) : fltb x y = false <-> y <= x.
Proof.
  split; intros H.
  - apply Qnot_lt_le. intros Hlt. apply fltb_lt in Hlt. congruence.
  - destruct (fltb x y) eqn:E; [|reflexivity].
    apply fltb_lt in E. lra.
Qed.

(** Case analysis on every comparison of the goal. *)
Ltac fcases :=
  repeat match goal with
    | |- context [fltb ?a ?b] =>
        let E := fresh "E" in
        destruct (fltb a b) eqn:E;
        [apply fltb_lt in E | apply fltb_ge in E]
    end.

Lemma max_val_Qmax (a b : real32) : NMath.max_val a b == Qmax a b.
Proof.
  unfold NMath.max_val.
  destruct (Q.max_spec a b) as [[H ->]|[H ->]]; fcases; lra.
Qed.

Lemma min_val_Qmin (a b : real32) : NMath.min_val a b == Qmin a b.
Proof.
  unfold NMath.min_val.
  destruct (Q.min_spec a b) as [[H ->]|[H ->]]; fcases; lra.
Qed.

Lemma fold_left_Qmax_compat (l : list Q) (a b : Q) :
  a == b -> fold_left Qmax l a == fold_left Qmax l b.
Proof.
  revert a b. induction l as [|x l IH]; intros a b Hab; simpl; [exact Hab|].
  apply IH. now rewrite Hab.
Qed.


(** ** Unfolding of the composites' distance functions *)


Lemma GetDistanceToPoint_Difference sqrtf base mObjectList point :
  GetDistanceToPoint sqrtf (CRenderDifference base mObjectList) point =
  Difference_loop
    (map (fun o => GetTransformedDistanceToPoint sqrtf o point) mObjectList) 0 0.
Proof. reflexivity. Qed.



Lemma Difference_loop_fold (ds : list real32) (maxValue : real32) (index : Z) :
  (0 < index)%Z ->
  Difference_loop ds maxValue index == fold_left Qmax (map Qopp ds) maxValue.
Proof.
  revert maxValue index.
  induction ds as [|d ds IH]; intros maxValue index Hpos; simpl.
  - reflexivity.
  - rewrite IH by lia. apply fold_left_Qmax_compat.
    replace (index =? 0)%Z with false by (symmetry; apply Z.eqb_neq; lia).
    rewrite max_val_Qmax. apply Q.max_compat; [reflexivity|ring].
Qed.

(** ** C1: the directional light *)

(** C1, as stated: the contribution of a directional light is black when
    [n . (- dir_unit) <= 0] and [color * (n . (- dir_unit))] otherwise.  This
    fails: for the unit direction (0,-1,0), the unit normal (0,1,0) and a
    white light, the negated direction gives the angle 1 and so the colour
    white, while the code takes the angle against the stored direction
    itself, finds -1 and returns black. *)
Lemma directional_light_negated_angle_refuted :
  ~ (forall (rsqrt_ss : real32 -> real32) (dir_unit p n : CVector3f)
            (color : CColor4f),
        Vec.Dot dir_unit dir_unit == 1 -> Vec.Dot n n == 1 ->
        Col.eqv
          (CalculateValueAtPosition rsqrt_ss
             (CDirectionalLightObject dir_unit color) p n)
          (if Qle_bool (Vec.Dot n (Vec.neg dir_unit)) 0 then Col.Black
           else Col.scale color (Vec.Dot n (Vec.neg dir_unit)))).
Proof.
  intros H.
  specialize (H (fun x => x) (mkVector 0 (-1) 0) Vec.Zero (mkVector 0 1 0)
                Col.White).
  destruct H as [Hred _]; [reflexivity | reflexivity |].
  vm_compute in Hred. discriminate Hred.
Qed.

(** C1, amended: for every directional light with stored direction
    [dir_unit], every surface point [p] and normal [n], the contribution is
    black when [n . dir_unit <= 0] and [color * (n . dir_unit)] otherwise:
    the angle is taken against the stored direction, not its negation. *)
Theorem directional_light_contribution
    (rsqrt_ss : real32 -> real32) (dir_unit p n : CVector3f) (color : CColor4f) :
  Col.eqv
    (CalculateValueAtPosition rsqrt_ss (CDirectionalLightObject dir_unit color) p n)
    (if Qle_bool (Vec.Dot n dir_unit) 0 then Col.Black
     else Col.scale color (Vec.Dot n dir_unit)).
Proof.
  unfold CalculateValueAtPosition.
  destruct (Qle_bool (Vec.Dot n dir_unit) 0) eqn:Hle; fcases.
  - repeat split; reflexivity.
  - apply Qle_bool_iff in Hle.
    assert (H0 : Vec.Dot n dir_unit == 0) by lra.
    unfold Col.eqv, Col.scale, Col.Black; simpl.
    rewrite H0. repeat split; ring.
  - assert (Hle' : Vec.Dot n dir_unit <= 0) by lra.
    apply Qle_bool_iff in Hle'. congruence.
  - repeat split; reflexivity.
Qed.

(** ** C2: the Difference composite *)

(** C2, as stated: the distance of a Difference is [max(d0, -d1, ..., -dn)]
    with no other term.  This fails: for the single child [y = 0] plane and
    the point (0,-1,0) the child's distance is -1, the claimed maximum is
    -1, and the code returns 0, the seed of its running maximum. *)
Lemma difference_plain_maximum_refuted :
  ~ (forall (sqrtf : real32 -> real32) (base : CRenderObjectBase)
            (mObjectList : list CRenderObject) (point : CVector3f)
            (d0 : real32) (ds : list real32),
        map (fun o => GetTransformedDistanceToPoint sqrtf o point) mObjectList
          = d0 :: ds ->
        GetDistanceToPoint sqrtf (CRenderDifference base mObjectList) point
          == fold_left Qmax (map Qopp ds) d0).
Proof.
  intros H.
  specialize (H (fun x => x) newBase
                [CRenderPlane newBase (mkVector 0 1 0) 0]
                (mkVector 0 (-1) 0) (-1 # 1) [] eq_refl).
  vm_compute in H. discriminate H.
Qed.

(** C2, amended: for every Difference composite with children whose
    transformed distances at a point are [d0, d1, ..., dn], the composite's
    distance at that point equals [max(0, d0, -d1, ..., -dn)]: the first
    child counts positively, every later child negated, and the only other
    term is the seed 0 of the running maximum (the value returned for an
    empty child list). *)
Theorem difference_distance
    (sqrtf : real32 -> real32) (base : CRenderObjectBase)
    (mObjectList : list CRenderObject) (point : CVector3f) :
  GetDistanceToPoint sqrtf (CRenderDifference base mObjectList) point ==
  match map (fun o => GetTransformedDistanceToPoint sqrtf o point) mObjectList with
  | [] => 0
  | d0 :: ds => fold_left Qmax (map Qopp ds) (Qmax 0 d0)
  end.
Proof.
  rewrite GetDistanceToPoint_Difference.
  destruct (map _ mObjectList) as [|d0 ds]; simpl.
  - reflexivity.
  - rewrite Difference_loop_fold by lia.
    apply fold_left_Qmax_compat.
    rewrite max_val_Qmax. apply Q.max_compat; [reflexivity|ring].
Qed.

(** ** C3: the Intersection composite *)


(** At the origin, inside the cube of edge 2 and inside the unit sphere,
    both children are at distance -1 and the Intersection reports 0. *)
Lemma intersection_inside_is_zero :
  GetTransformedDistanceToPoint isqrtf (cube 2) Vec.Zero == -1
  /\ GetTransformedDistanceToPoint isqrtf (sphere 1) Vec.Zero == -1
  /\ GetDistanceToPoint isqrtf (CRenderIntersection newBase [cube 2; sphere 1])
                        Vec.Zero == 0.
Proof. repeat split. Qed.

(** The same two children under Difference: the origin lies in the removed
    sphere, at distance [max(0, -1, 1) = 1] from the solid. *)
Lemma difference_cube_sphere_origin :
  GetDistanceToPoint isqrtf (CRenderDifference newBase [cube 2; sphere 1])
                     Vec.Zero == 1.
Proof. vm_compute. reflexivity. Qed.

(** ** C7: the Cube *)

(** The inside term of the cube: the maximum of the three clamped
    components is the clamped maximum. *)
Lemma cube_inside_term (x y z : real32) :
  NMath.max_val (NMath.max_val (NMath.min_val x 0) (NMath.min_val y 0))
                (NMath.min_val z 0)
  == Qmin (Qmax (Qmax x y) z) 0.
Proof.
  rewrite !max_val_Qmax, !min_val_Qmin.
  pose proof (Q.min_spec x 0) as Ha.
  pose proof (Q.min_spec y 0) as Hb.
  pose proof (Q.min_spec z 0) as Hc.
  pose proof (Q.max_spec (Qmin x 0) (Qmin y 0)) as Hab.
  pose proof (Q.max_spec (Qmax (Qmin x 0) (Qmin y 0)) (Qmin z 0)) as Habc.
  pose proof (Q.max_spec x y) as Hxy.
  pose proof (Q.max_spec (Qmax x y) z) as Hxyz.
  pose proof (Q.min_spec (Qmax (Qmax x y) z) 0) as Hr.
  remember (Qmin x 0) as a eqn:Ea in *; clear Ea.
  remember (Qmin y 0) as b eqn:Eb in *; clear Eb.
  remember (Qmin z 0) as c eqn:Ec in *; clear Ec.
  remember (Qmax a b) as ab eqn:Eab in *; clear Eab.
  remember (Qmax ab c) as abc eqn:Eabc in *; clear Eabc.
  remember (Qmax x y) as xy eqn:Exy in *; clear Exy.
  remember (Qmax xy z) as xyz eqn:Exyz in *; clear Exyz.
  remember (Qmin xyz 0) as r eqn:Er in *; clear Er.
  lra.
Qed.

(** C7: for every Cube with half-extents [mSize] and every point, with
    [d = |point| - mSize] component-wise, the distance is the Euclidean norm
    of the component-wise [max(d, 0)] plus [min(max(d.x, d.y, d.z), 0)]; the
    code's inside term [max(min(d.x,0), min(d.y,0), min(d.z,0))] equals
    [min(max(d.x,d.y,d.z), 0)] for all inputs.  The square root is any
    function of the numeric value of its argument. *)
Theorem cube_distance
    (sqrtf : real32 -> real32) (sqrtf_value : Proper (Qeq ==> Qeq) sqrtf)
    (base : CRenderObjectBase) (mSize point : CVector3f) :
  let dx := Qabs (mX point) - mX mSize in
  let dy := Qabs (mY point) - mY mSize in
  let dz := Qabs (mZ point) - mZ mSize in
  GetDistanceToPoint sqrtf (CRenderCube base mSize) point
    == Magnitude sqrtf (mkVector (Qmax dx 0) (Qmax dy 0) (Qmax dz 0))
       + Qmin (Qmax (Qmax dx dy) dz) 0
  /\ NMath.max_val (NMath.max_val (NMath.min_val dx 0) (NMath.min_val dy 0))
                   (NMath.min_val dz 0)
     == Qmin (Qmax (Qmax dx dy) dz) 0.
Proof.
  intros dx dy dz. split; [|apply cube_inside_term].
  change (GetDistanceToPoint sqrtf (CRenderCube base mSize) point)
    with (Cube_distance sqrtf mSize point).
  unfold Cube_distance, Magnitude, NMath.AbsF. fold dx dy dz.
  apply Qplus_comp; [|apply cube_inside_term].
  apply sqrtf_value. unfold Vec.Dot; simpl.
  rewrite !max_val_Qmax. reflexivity.
Qed.

Lemma isqrtf_value : Proper (Qeq ==> Qeq) isqrtf.
Proof. intros x y Hxy. unfold isqrtf. now rewrite Hxy. Qed.

(** The cube of half-extent 1 at the outside point (4,5,1): the distance is
    [|(3,4,0)| + 0 = 5]. *)
Lemma cube_distance_witness :
  GetDistanceToPoint isqrtf (CRenderCube newBase (mkVector 1 1 1))
                     (mkVector 4 5 1) == 5.
Proof.
  destruct (cube_distance isqrtf isqrtf_value newBase (mkVector 1 1 1)
                          (mkVector 4 5 1)) as [H _].
  rewrite H. reflexivity.
Defined.

(** ** C5: the Blend composite *)


(** C5, at the failing input [blend({plane, plane}, 0) << translate(1,0,0)]
    with both children the plane [x = 0], at the local point (0,0,0): both
    children are at distance 0 from that point, so the claimed value is
    [lerp(0, 0, 0) = 0], while the code evaluates the children at the point
    moved by the Blend's inverse transform, (-1,0,0), and returns -1.  Seen
    from outside, the world point (1,0,0), which lies on the translated
    plane, is reported at distance -1. *)
Theorem blend_applies_own_inverse_transform (sqrtf : real32 -> real32) :
  GetDistanceToPoint sqrtf blend_translated Vec.Zero == -1
  /\ NMath.lerp (GetTransformedDistanceToPoint sqrtf plane_x Vec.Zero)
                (GetTransformedDistanceToPoint sqrtf plane_x Vec.Zero)
                (0 - floorf 0) == 0
  /\ GetTransformedDistanceToPoint sqrtf blend_translated (mkVector 1 0 0) == -1.
Proof. repeat split. Qed.

(** ** C4: termination of the primary-ray march *)

Lemma MarchRay_loop_S sqrtf scene ray maxLength fuel time count minDistance :
  MarchRay_loop sqrtf scene ray maxLength (S fuel) time count minDistance =
  if fltb time maxLength then
    let currentPoint := GetPositionAlongRay ray time in
    let d := GetMinDistanceAtPoint sqrtf scene currentPoint in
    if fltb (Qabs d) skMinLength || (count >? 200)%Z
    then Some (mkRayResult currentPoint time true)
    else MarchRay_loop sqrtf scene ray maxLength fuel (time + d) (count + 1)%Z
                       (NMath.min_val minDistance d)
  else Some (mkRayResult Vec.Zero minDistance false).
Proof.
  simpl. destruct (fltb time maxLength); [|reflexivity].
  destruct (fltb _ skMinLength); reflexivity.
Qed.

(** From a counter value [count], [202 - count] evaluations of the loop
    condition are enough. *)
Lemma MarchRay_loop_terminates sqrtf scene ray maxLength (n : nat) :
  forall (time : real32) (count : Z) (minDistance : real32),
    (201 - Z.of_nat n <= count)%Z ->
    exists r, forall extra : nat,
      MarchRay_loop sqrtf scene ray maxLength (S n + extra) time count minDistance
      = Some r.
Proof.
  induction n as [|n IH]; intros time count minDistance Hcount.
  - setoid_rewrite MarchRay_loop_S.
    destruct (fltb time maxLength); [|eauto].
    cbv zeta. replace (count >? 200)%Z with true by (rewrite Z.gtb_ltb; symmetry; apply Z.ltb_lt; lia).
    rewrite orb_true_r. eauto.
  - change (S (S n)) with (1 + S n)%nat.
    setoid_rewrite MarchRay_loop_S.
    destruct (fltb time maxLength); [|eauto].
    cbv zeta. destruct (_ || _); [eauto|].
    apply IH. lia.
Qed.

(** C4: for every scene, ray and [maxLength] the primary-ray march
    terminates: 202 iterations always suffice and more fuel never changes
    the result; an iteration returns a miss as soon as [time] is not below
    [maxLength], returns a hit when the absolute scene distance is below
    [skMinLength] or the counter exceeds 200, and otherwise advances [time]
    by the scene distance and the counter by one. *)
Theorem MarchRay_terminates
    (sqrtf : real32 -> real32) (scene : CRenderScene) (ray : CInfiniteRay)
    (maxLength : real32) :
  (exists r, forall extra : nat,
      MarchRay sqrtf scene ray maxLength (202 + extra) = Some r)
  /\ (forall fuel time count minDistance,
        MarchRay_loop sqrtf scene ray maxLength (S fuel) time count minDistance =
        if fltb time maxLength then
          let currentPoint := GetPositionAlongRay ray time in
          let d := GetMinDistanceAtPoint sqrtf scene currentPoint in
          if fltb (Qabs d) skMinLength || (count >? 200)%Z
          then Some (mkRayResult currentPoint time true)
          else MarchRay_loop sqrtf scene ray maxLength fuel (time + d)
                             (count + 1)%Z (NMath.min_val minDistance d)
        else Some (mkRayResult Vec.Zero minDistance false)).
Proof.
  split.
  - apply (MarchRay_loop_terminates sqrtf scene ray maxLength 201). lia.
  - intros. apply MarchRay_loop_S.
Qed.

(** In the scene at constant distance [skMinLength] an iteration that
    starts below [maxLength] with a counter of at most 200 continues. *)
Lemma fog_scene_iteration (maxLength : real32) fuel time count minDistance :
  time < maxLength -> (count <= 200)%Z ->
  MarchRay_loop isqrtf fog_scene ray_z maxLength (S fuel) time count minDistance
  = MarchRay_loop isqrtf fog_scene ray_z maxLength fuel (time + skMinLength)
                  (count + 1)%Z (NMath.min_val minDistance skMinLength).
Proof.
  intros Htime Hcount. rewrite MarchRay_loop_S.
  apply fltb_lt in Htime. rewrite Htime. cbv zeta.
  change (GetMinDistanceAtPoint isqrtf fog_scene
            (GetPositionAlongRay ray_z time)) with skMinLength.
  change (fltb (Qabs skMinLength) skMinLength) with false.
  replace (count >? 200)%Z with false by (rewrite Z.gtb_ltb; symmetry; apply Z.ltb_ge; lia).
  reflexivity.
Qed.

Lemma fog_scene_runs_out (maxLength : real32) (n : nat) :
  forall time count minDistance,
    time + inject_Z (Z.of_nat n) * skMinLength < maxLength ->
    (count + Z.of_nat n <= 201)%Z ->
    MarchRay_loop isqrtf fog_scene ray_z maxLength n time count minDistance = None.
Proof.
  assert (Hmin : 0 < skMinLength) by reflexivity.
  induction n as [|n IH]; intros time count minDistance Htime Hcount;
    [reflexivity|].
  rewrite Nat2Z.inj_succ in Htime. unfold Z.succ in Htime.
  rewrite inject_Z_plus in Htime. change (inject_Z 1) with 1 in Htime.
  assert (0 <= inject_Z (Z.of_nat n) * skMinLength).
  { apply Qmult_le_0_compat; [|lra]. change 0 with (inject_Z 0).
    rewrite <- Zle_Qle. lia. }
  rewrite fog_scene_iteration by (lra || lia).
  apply IH; [lra | lia].
Qed.

Lemma fog_scene_counter_hit (maxLength : real32) (n : nat) :
  forall time count minDistance,
    time + inject_Z (Z.of_nat n) * skMinLength < maxLength ->
    (count + Z.of_nat n = 201)%Z ->
    option_map mHit
      (MarchRay_loop isqrtf fog_scene ray_z maxLength (S n) time count minDistance)
    = Some true.
Proof.
  assert (Hmin : 0 < skMinLength) by reflexivity.
  induction n as [|n IH]; intros time count minDistance Htime Hcount.
  - rewrite MarchRay_loop_S.
    replace (fltb time maxLength) with true
      by (symmetry; apply fltb_lt; change (inject_Z (Z.of_nat 0)) with 0 in Htime; lra).
    cbv zeta.
    replace (count >? 200)%Z with true by (rewrite Z.gtb_ltb; symmetry; apply Z.ltb_lt; lia).
    rewrite orb_true_r. reflexivity.
  - rewrite Nat2Z.inj_succ in Htime. unfold Z.succ in Htime.
    rewrite inject_Z_plus in Htime. change (inject_Z 1) with 1 in Htime.
    assert (0 <= inject_Z (Z.of_nat n) * skMinLength).
    { apply Qmult_le_0_compat; [|lra]. change 0 with (inject_Z 0).
      rewrite <- Zle_Qle. lia. }
    rewrite fog_scene_iteration by (lra || lia).
    apply IH; [lra | lia].
Qed.

(** The bound is reached: in the scene at constant distance [skMinLength]
    the march along a ray of length 60 needs all 202 iterations, and ends
    in a hit forced by the counter. *)
Lemma MarchRay_bound_reached :
  MarchRay isqrtf fog_scene ray_z skMaxLength 201 = None
  /\ option_map mHit (MarchRay isqrtf fog_scene ray_z skMaxLength 202) = Some true.
Proof.
  split.
  - apply fog_scene_runs_out; [reflexivity | lia].
  - apply (fog_scene_counter_hit skMaxLength 201); [reflexivity | lia].
Qed.

(** ** C6: the soft-shadow march *)

Lemma MarchShadowRay_loop_S sqrtf scene ray maxLength penumbra addf fuel shadow
    time :
  MarchShadowRay_loop sqrtf scene ray maxLength penumbra addf (S fuel) shadow
                      time =
  if fltb time maxLength then
    let d := GetMinDistanceAtPoint sqrtf scene (GetPositionAlongRay ray time) in
    if fltb d skMinLength then Some (XFin 0)
    else MarchShadowRay_loop sqrtf scene ray maxLength penumbra addf fuel
           (min_val_x shadow (xdiv (penumbra * d) time)) (addf time d)
  else Some shadow.
Proof. reflexivity. Qed.

Lemma ShadowSamples_S sqrtf scene ray maxLength addf fuel time :
  ShadowSamples sqrtf scene ray maxLength addf (S fuel) time =
  if fltb time maxLength then
    let d := GetMinDistanceAtPoint sqrtf scene (GetPositionAlongRay ray time) in
    if fltb d skMinLength then [(time, d)]
    else (time, d) :: ShadowSamples sqrtf scene ray maxLength addf fuel
                        (addf time d)
  else [].
Proof. reflexivity. Qed.

(** The quotient of a positive numerator by a time that is not negative
    is the positive infinity at time zero and a positive scalar later. *)
Lemma xdiv_positive (a b : real32) :
  0 < a -> 0 <= b ->
  (b == 0 /\ xdiv a b = XPosInf) \/ (0 < b /\ 0 < a / b /\ xdiv a b = XFin (a / b)).
Proof.
  intros Ha Hb. unfold xdiv.
  destruct (Qeq_bool b 0) eqn:E.
  - left. apply Qeq_bool_iff in E. split; [exact E|].
    apply Qgt_alt in Ha. now rewrite Ha.
  - right. apply Qeq_bool_neq in E.
    assert (Hb' : 0 < b) by (apply Qle_lteq in Hb as [H|H]; [exact H|]; symmetry in H; contradiction).
    split; [exact Hb'|]. split; [|reflexivity].
    apply Qlt_shift_div_l; [exact Hb'|]. lra.
Qed.

Lemma skMinLength_pos : 0 < skMinLength.
Proof. reflexivity. Qed.

Lemma inject_nat_succ (n : nat) :
  inject_Z (Z.of_nat (S n)) == inject_Z (Z.of_nat n) + 1.
Proof. rewrite Nat2Z.inj_succ. unfold Z.succ. rewrite inject_Z_plus. reflexivity. Qed.

(** *** Binary32 sums *)

Lemma pow2_pos (e : Z) : 0 < 2 ^ e.
Proof. apply Qpower_0_lt. reflexivity. Qed.

Lemma pow2_inject (a : Z) : (0 <= a)%Z -> inject_Z (2 ^ a) == 2 ^ a.
Proof. intros Ha. now rewrite Zpower_Qpower. Qed.

(** The binade of a positive fraction, from the binary logarithms of its
    numerator and denominator. *)
Lemma fraction_binade (n : Z) (d : positive) :
  (0 < n)%Z ->
  2 ^ (Z.log2 n - Z.log2 (Z.pos d) - 1) <= n # d
  /\ n # d < 2 ^ (Z.log2 n - Z.log2 (Z.pos d) + 1).
Proof.
  intros Hn.
  destruct (Z.log2_spec n Hn) as [Hn0 Hn1].
  destruct (Z.log2_spec (Z.pos d) eq_refl) as [Hd0 Hd1].
  pose proof (Z.log2_nonneg n) as Ha. pose proof (Z.log2_nonneg (Z.pos d)) as Hb.
  set (a := Z.log2 n) in *. set (b := Z.log2 (Z.pos d)) in *.
  rewrite <- Z.add_1_r in Hn1, Hd1.
  assert (Hqd : 0 < inject_Z (Z.pos d)) by reflexivity.
  rewrite (Qmake_Qdiv n d).
  replace (a - b - 1)%Z with (a - (b + 1))%Z by lia.
  replace (a - b + 1)%Z with (a + 1 - b)%Z by lia.
  rewrite !Qpower_minus by discriminate.
  rewrite <- !pow2_inject by lia.
  assert (Hp1 : 0 < inject_Z (2 ^ (b + 1))).
  { rewrite pow2_inject by lia. apply pow2_pos. }
  assert (Hp0 : 0 < inject_Z (2 ^ b)).
  { rewrite pow2_inject by lia. apply pow2_pos. }
  split.
  - apply Qle_shift_div_l; [exact Hqd|].
    unfold Qdiv. rewrite <- Qmult_assoc, (Qmult_comm (/ _)), Qmult_assoc.
    apply Qle_shift_div_r; [exact Hp1|].
    rewrite <- !inject_Z_mult, <- Zle_Qle.
    apply Z.mul_le_mono_nonneg; lia.
  - apply Qlt_shift_div_r; [exact Hqd|].
    unfold Qdiv. rewrite <- Qmult_assoc, (Qmult_comm (/ _)), Qmult_assoc.
    apply Qlt_shift_div_l; [exact Hp0|].
    rewrite <- !inject_Z_mult, <- Zlt_Qlt.
    apply Z.le_lt_trans with (n * Z.pos d)%Z.
    + apply Z.mul_le_mono_nonneg_l; lia.
    + apply Z.mul_lt_mono_pos_r; lia.
Qed.

Lemma exponent_spec (x : Q) :
  0 < x ->
  2 ^ Binary32.exponent x <= x /\ x < 2 ^ (Binary32.exponent x + 1).
Proof.
  intros Hx. destruct x as [n d].
  assert (Hn : (0 < n)%Z).
  { unfold Qlt in Hx. simpl in Hx. lia. }
  destruct (fraction_binade n d Hn) as [Hlo Hhi].
  unfold Binary32.exponent. simpl Qnum. simpl Qden.
  set (e0 := (Z.log2 n - Z.log2 (Z.pos d))%Z) in *.
  destruct (Qle_bool (2 ^ e0) (n # d)) eqn:E.
  - apply Qle_bool_iff in E. split; assumption.
  - replace (e0 - 1 + 1)%Z with e0 by lia.
    split; [exact Hlo|].
    apply Qnot_le_lt. intros H. apply Qle_bool_iff in H. congruence.
Qed.

(** Rounding to the nearest integer moves by at most one half. *)
Lemma nearest_even_bounds (q : Q) :
  q - (1 # 2) <= inject_Z (Binary32.nearest_even q)
  /\ inject_Z (Binary32.nearest_even q) <= q + (1 # 2).
Proof.
  pose proof (Qfloor_le q) as Hlo. pose proof (Qlt_floor q) as Hhi.
  rewrite inject_Z_plus in Hhi. change (inject_Z 1) with 1 in Hhi.
  unfold Binary32.nearest_even. cbv zeta.
  destruct (q - inject_Z (Qfloor q) ?= 1 # 2) eqn:E.
  - apply Qeq_alt in E.
    destruct (Z.even (Qfloor q));
      rewrite ?inject_Z_plus; change (inject_Z 1) with 1; split; lra.
  - apply Qlt_alt in E. split; lra.
  - apply Qgt_alt in E.
    rewrite inject_Z_plus. change (inject_Z 1) with 1. split; lra.
Qed.

Lemma nearest_even_le (q : Q) (m : Z) :
  q < inject_Z m + (1 # 2) -> (Binary32.nearest_even q <= m)%Z.
Proof.
  intros Hq. destruct (nearest_even_bounds q) as [_ Hhi].
  assert (H : inject_Z (Binary32.nearest_even q) < inject_Z (m + 1)).
  { rewrite inject_Z_plus. change (inject_Z 1) with 1. lra. }
  rewrite <- Zlt_Qlt in H. lia.
Qed.

Lemma nearest_even_nonneg (q : Q) :
  0 <= q -> (0 <= Binary32.nearest_even q)%Z.
Proof.
  intros Hq. destruct (nearest_even_bounds q) as [Hlo _].
  assert (H : inject_Z (-1) < inject_Z (Binary32.nearest_even q)).
  { change (inject_Z (-1)) with (-1). lra. }
  rewrite <- Zlt_Qlt in H. lia.
Qed.

Lemma ulp_pos (x : Q) : 0 < Binary32.ulp x.
Proof. apply pow2_pos. Qed.

Lemma round_positive (x : Q) :
  0 < x -> Binary32.round x = Binary32.round_pos x.
Proof.
  intros Hx. unfold Binary32.round.
  apply Qgt_alt in Hx. now rewrite Hx.
Qed.

Lemma round_pos_nonneg (x : Q) : 0 < x -> 0 <= Binary32.round_pos x.
Proof.
  intros Hx. unfold Binary32.round_pos.
  pose proof (ulp_pos x) as Hu.
  apply Qmult_le_0_compat; [|lra].
  change 0 with (inject_Z 0). rewrite <- Zle_Qle.
  apply nearest_even_nonneg.
  apply Qle_shift_div_l; [exact Hu | lra].
Qed.

(** Rounding never passes the next power of two: a positive value below
    2048 rounds to at most 2048. *)
Lemma round_pos_below_2048 (x : Q) :
  0 < x -> x < 2048 -> Binary32.round_pos x <= 2048.
Proof.
  intros Hx Hlt.
  destruct (exponent_spec x Hx) as [Hlo Hhi].
  set (e := Binary32.exponent x) in *.
  assert (He : (e <= 10)%Z).
  { assert (H : 2 ^ e < 2 ^ 11) by (change (2 ^ 11) with 2048; lra).
    apply Qpower_lt_compat_l_inv in H; [lia | reflexivity]. }
  unfold Binary32.round_pos, Binary32.ulp. fold e.
  set (e' := Z.max e (-126)).
  assert (He' : (e <= e' <= 10)%Z) by (unfold e'; lia).
  pose proof (pow2_pos (e' - 23)) as Hu.
  assert (Hsplit : 2 ^ (e' + 1) == 2 ^ 24 * 2 ^ (e' - 23)).
  { rewrite <- Qpower_plus by discriminate. f_equiv. lia. }
  assert (Hq : x / 2 ^ (e' - 23) < inject_Z (2 ^ 24) + (1 # 2)).
  { apply Qlt_shift_div_r; [exact Hu|].
    rewrite pow2_inject by lia.
    apply Qlt_le_trans with (2 ^ (e + 1)); [exact Hhi|].
    apply Qle_trans with (2 ^ (e' + 1)).
    - apply Qpower_le_compat_l; [lia | discriminate].
    - rewrite Hsplit.
      apply Qmult_le_compat_r; [|lra].
      assert (0 < 2 ^ 24) by apply pow2_pos. lra. }
  apply nearest_even_le in Hq.
  apply Qle_trans with (inject_Z (2 ^ 24) * 2 ^ (e' - 23)).
  - apply Qmult_le_compat_r; [|lra]. now rewrite <- Zle_Qle.
  - rewrite pow2_inject by lia. rewrite <- Hsplit.
    change 2048 with (2 ^ 11).
    apply Qpower_le_compat_l; [lia | discriminate].
Qed.

(** From 2048 on the binary32 numbers are [2^-12] apart, more than twice
    [skMinLength]: a value that exceeds 2048 by [skMinLength] at most
    rounds to 2048. *)
Lemma round_pos_at_2048 (x : Q) :
  2048 <= x -> x <= 2048 + skMinLength -> Binary32.round_pos x <= 2048.
Proof.
  intros Hlo Hhi. unfold skMinLength in Hhi.
  assert (Hx : 0 < x) by lra.
  destruct (exponent_spec x Hx) as [Helo Hehi].
  set (e := Binary32.exponent x) in *.
  assert (He : e = 11%Z).
  { assert (H1 : 2 ^ e < 2 ^ 12) by (change (2 ^ 12) with 4096; lra).
    assert (H2 : 2 ^ 11 < 2 ^ (e + 1)) by (change (2 ^ 11) with 2048; lra).
    apply Qpower_lt_compat_l_inv in H1; [|reflexivity].
    apply Qpower_lt_compat_l_inv in H2; [|reflexivity]. lia. }
  unfold Binary32.round_pos, Binary32.ulp. fold e. rewrite He.
  change (2 ^ (Z.max 11 (-126) - 23)) with (1 # 4096).
  assert (Hq : x / (1 # 4096) < inject_Z 8388608 + (1 # 2)).
  { apply Qlt_shift_div_r; [reflexivity|].
    change (inject_Z 8388608) with 8388608. lra. }
  apply nearest_even_le in Hq.
  apply Qle_trans with (inject_Z 8388608 * (1 # 4096)).
  - apply Qmult_le_compat_r; [|discriminate]. now rewrite <- Zle_Qle.
  - discriminate.
Qed.

(** The stall: from a time in [[0, 2048]] the binary32 sum with
    [skMinLength] is in [[0, 2048]] again. *)
Lemma add_stalls (t : Q) :
  0 <= t -> t <= 2048 ->
  0 <= Binary32.add t skMinLength /\ Binary32.add t skMinLength <= 2048.
Proof.
  intros Ht0 Ht1. unfold Binary32.add.
  assert (Hx : 0 < t + skMinLength) by (unfold skMinLength; lra).
  rewrite (round_positive _ Hx).
  split; [now apply round_pos_nonneg|].
  destruct (Qlt_le_dec (t + skMinLength) 2048) as [Hlt|Hge].
  - now apply round_pos_below_2048.
  - apply round_pos_at_2048; [exact Hge | lra].
Qed.

(** From [skMinLength] on, rounding loses at most the fraction [2^-24] of
    the value. *)
Lemma round_pos_error (x : Q) :
  skMinLength <= x -> x - x * (1 # 16777216) <= Binary32.round_pos x.
Proof.
  intros Hmin. unfold skMinLength in Hmin.
  assert (Hx : 0 < x) by lra.
  destruct (exponent_spec x Hx) as [Hlo Hhi].
  set (e := Binary32.exponent x) in *.
  assert (He : (-14 <= e)%Z).
  { assert (H : 2 ^ (-14) < 2 ^ (e + 1)).
    { change (2 ^ (-14)) with (1 # 16384). lra. }
    apply Qpower_lt_compat_l_inv in H; [lia | reflexivity]. }
  unfold Binary32.round_pos, Binary32.ulp. fold e.
  rewrite Z.max_l by lia.
  pose proof (pow2_pos (e - 23)) as Hu.
  assert (Hsplit : 2 ^ (e - 23) == 2 ^ e * (1 # 8388608)).
  { unfold Z.sub. rewrite Qpower_plus by discriminate. reflexivity. }
  destruct (nearest_even_bounds (x / 2 ^ (e - 23))) as [Hne _].
  set (m := inject_Z (Binary32.nearest_even (x / 2 ^ (e - 23)))) in *.
  assert (Hm : x - (1 # 2) * 2 ^ (e - 23) <= m * 2 ^ (e - 23)).
  { assert (Hxq : (x / 2 ^ (e - 23) - (1 # 2)) * 2 ^ (e - 23)
                  == x - (1 # 2) * 2 ^ (e - 23)).
    { field. intros H. rewrite H in Hu. discriminate. }
    rewrite <- Hxq.
    apply Qmult_le_compat_r; [exact Hne | lra]. }
  rewrite Hsplit in Hm |- *. lra.
Qed.

(** Below 512 the binary32 sum with a distance of at least [skMinLength]
    advances the time by at least half of [skMinLength]. *)
Lemma add_progress (t d : Q) :
  0 <= t -> t <= 512 -> skMinLength <= d ->
  t + (1 # 20000) <= Binary32.add t d.
Proof.
  intros Ht0 Ht1 Hd. unfold Binary32.add.
  pose proof (round_pos_error (t + d)) as Herr.
  unfold skMinLength in *.
  rewrite round_positive by lra.
  specialize (Herr ltac:(lra)). lra.
Qed.

(** *** The value of the march, where it returns *)

(** The invariant of the shadow loop, for a sum that advances the time by
    at least [delta] in every iteration that continues: [time] is not
    negative, the running shadow is a scalar [s] of [0,1], and [n] more
    advancing iterations carry [time] to [maxLength]. *)
Lemma MarchShadowRay_loop_inv sqrtf scene ray maxLength penumbra addf delta :
  0 < penumbra -> 0 < delta ->
  (forall t d, 0 <= t -> t < maxLength -> skMinLength <= d ->
               t + delta <= addf t d) ->
  forall (n : nat) (s time : real32),
    0 <= time -> 0 <= s -> s <= 1 ->
    maxLength - time <= inject_Z (Z.of_nat n) * delta ->
    exists s',
      (forall extra : nat,
          MarchShadowRay_loop sqrtf scene ray maxLength penumbra addf
                              (S n + extra) (XFin s) time = Some (XFin s'))
      /\ 0 <= s' /\ s' <= s
      /\ (Exists (fun td => snd td < skMinLength)
                 (ShadowSamples sqrtf scene ray maxLength addf (S n) time)
          -> s' == 0)
      /\ (Forall (fun td => skMinLength <= snd td
                            /\ (0 < fst td -> s <= penumbra * snd td / fst td))
                 (ShadowSamples sqrtf scene ray maxLength addf (S n) time)
          -> s' == s).
Proof.
  intros Hk Hdelta Hprog. pose proof skMinLength_pos as Hmin.
  induction n as [|n IH]; intros s time Htime Hs0 Hs1 Hfuel.
  - assert (Hexit : fltb time maxLength = false).
    { apply fltb_ge. change (inject_Z (Z.of_nat 0)) with 0 in Hfuel. lra. }
    exists s. rewrite ShadowSamples_S, Hexit.
    repeat split; try lra.
    + intros extra. change (1 + extra)%nat with (S extra).
      now rewrite MarchShadowRay_loop_S, Hexit.
    + intros H. inversion H.
  - change (S (S n)) with (1 + S n)%nat.
    rewrite ShadowSamples_S. setoid_rewrite MarchShadowRay_loop_S.
    destruct (fltb time maxLength) eqn:Hcond.
    2:{ exists s. repeat split; try lra. intros H. inversion H. }
    apply fltb_lt in Hcond.
    cbv zeta.
    set (d := GetMinDistanceAtPoint sqrtf scene (GetPositionAlongRay ray time)).
    destruct (fltb d skMinLength) eqn:Hnear.
    + apply fltb_lt in Hnear.
      exists 0. repeat split; try lra; try reflexivity.
      intros H. apply Forall_inv in H. simpl in H. lra.
    + apply fltb_ge in Hnear.
      assert (Hnum : 0 < penumbra * d).
      { apply Qmult_lt_0_compat; lra. }
      pose proof (Hprog time d Htime Hcond Hnear) as Hadv.
      assert (Hfuel' : maxLength - addf time d
                       <= inject_Z (Z.of_nat n) * delta).
      { rewrite inject_nat_succ in Hfuel.
        assert (Hexp : (inject_Z (Z.of_nat n) + 1) * delta
                       == inject_Z (Z.of_nat n) * delta + delta) by ring.
        rewrite Hexp in Hfuel. lra. }
      set (shadow' := min_val_x (XFin s) (xdiv (penumbra * d) time)).
      assert (Hstep : exists s2, shadow' = XFin s2 /\ 0 <= s2 /\ s2 <= s
                        /\ ((0 < time -> s <= penumbra * d / time) -> s2 == s)).
      { unfold shadow'.
        destruct (xdiv_positive _ _ Hnum Htime) as [[Hz ->]|(Hpos & Hq & ->)].
        - exists s. repeat split; try lra; try reflexivity.
        - unfold min_val_x, xltb.
          destruct (fltb s (penumbra * d / time)) eqn:Hlt.
          + exists s. repeat split; try lra; try reflexivity.
          + apply fltb_ge in Hlt.
            exists (penumbra * d / time).
            split; [reflexivity|]. split; [lra|]. split; [lra|].
            intros H. specialize (H Hpos). lra. }
      destruct Hstep as (s2 & -> & Hs2 & Hs2s & Hkeep).
      destruct (IH s2 (addf time d)) as (s' & Hrun & Hs' & Hs's2 & Hzero & Hone);
        try lra.
      exists s'. repeat split; try lra.
      * exact Hrun.
      * intros H. apply Exists_cons in H as [H|H]; [simpl in H; lra|].
        now apply Hzero.
      * intros H. pose proof (Forall_inv H) as [_ Hhd]. simpl in Hhd.
        apply Forall_inv_tail in H.
        rewrite <- (Hkeep Hhd). apply Hone.
        eapply Forall_impl; [exact H|].
        intros [t' d'] [Hd' Hr]. split; [exact Hd'|].
        intros Ht'. specialize (Hr Ht'). lra.
Qed.

Lemma ShadowFuel_enough (delta maxLength : real32) :
  0 < delta ->
  maxLength - 0
  <= inject_Z (Z.of_nat (Z.to_nat (Qceiling (maxLength / delta)))) * delta.
Proof.
  intros Hdelta.
  pose proof (Qle_ceiling (maxLength / delta)) as Hc.
  assert (Hz : inject_Z (Qceiling (maxLength / delta))
               <= inject_Z (Z.of_nat (Z.to_nat (Qceiling (maxLength / delta))))).
  { rewrite <- Zle_Qle. lia. }
  assert (Hm : maxLength - 0 == maxLength / delta * delta).
  { field. intros H. rewrite H in Hdelta. discriminate. }
  rewrite Hm.
  apply Qmult_le_compat_r; [lra | lra].
Qed.

(** What C6 says, where the sum advances the time: for every ray and
    penumbra constant [k > 0], and every sum that advances the time by at
    least [delta] up to [maxLength], the soft-shadow march returns, and its
    value is a scalar of [0,1]; it is 0 as soon as a sampled scene distance
    is below [skMinLength]; and it is 1 when the ray reaches [maxLength]
    (every sampled distance is at least [skMinLength]) with [k * d / t]
    never below 1 at a sampled point. *)
Lemma MarchShadowRay_range
    (sqrtf : real32 -> real32) (scene : CRenderScene) (ray : CInfiniteRay)
    (maxLength penumbra : real32) (addf : real32 -> real32 -> real32)
    (delta : real32) :
  0 < penumbra -> 0 < delta ->
  (forall t d, 0 <= t -> t < maxLength -> skMinLength <= d ->
               t + delta <= addf t d) ->
  exists s,
    (forall extra : nat,
        MarchShadowRay sqrtf scene ray maxLength penumbra addf
                       (ShadowFuel delta maxLength + extra) = Some (XFin s))
    /\ 0 <= s /\ s <= 1
    /\ (Exists (fun td => snd td < skMinLength)
               (ShadowSamples sqrtf scene ray maxLength addf
                              (ShadowFuel delta maxLength) 0)
        -> s == 0)
    /\ (Forall (fun td => skMinLength <= snd td
                          /\ (0 < fst td -> 1 <= penumbra * snd td / fst td))
               (ShadowSamples sqrtf scene ray maxLength addf
                              (ShadowFuel delta maxLength) 0)
        -> s == 1).
Proof.
  intros Hk Hdelta Hprog. unfold MarchShadowRay, ShadowFuel.
  apply (MarchShadowRay_loop_inv sqrtf scene ray maxLength penumbra addf delta
           Hk Hdelta Hprog);
    try lra.
  now apply ShadowFuel_enough.
Qed.

(** With the binary32 sum this covers every ray of length 512 at most. *)
Lemma MarchShadowRay_range_binary32
    (sqrtf : real32 -> real32) (scene : CRenderScene) (ray : CInfiniteRay)
    (maxLength penumbra : real32) :
  0 < penumbra -> maxLength <= 512 ->
  exists s,
    (forall extra : nat,
        MarchShadowRay sqrtf scene ray maxLength penumbra Binary32.add
                       (ShadowFuel (1 # 20000) maxLength + extra)
        = Some (XFin s))
    /\ 0 <= s /\ s <= 1.
Proof.
  intros Hk Hmax.
  destruct (MarchShadowRay_range sqrtf scene ray maxLength penumbra
              Binary32.add (1 # 20000) Hk eq_refl)
    as (s & Hrun & Hs0 & Hs1 & _).
  - intros t d Ht0 Ht1 Hd. apply add_progress; [exact Ht0 | lra | exact Hd].
  - exists s. split; [exact Hrun|]. split; assumption.
Qed.

(** A ray of length 30 that runs along a wall at distance 1, with the
    penumbra constant 24 of the point lights and the binary32 sum: the
    samples are at the times 0, 1, ..., 29, and the value is the smallest
    quotient, 24/29. *)
Lemma MarchShadowRay_along_wall :
  exists s,
    MarchShadowRay isqrtf wall_scene ray_along_wall 30 24 Binary32.add
                   (ShadowFuel (1 # 20000) 30) = Some (XFin s)
    /\ s == 24 # 29.
Proof.
  destruct (MarchShadowRay_range_binary32 isqrtf wall_scene ray_along_wall
              30 24 eq_refl ltac:(discriminate))
    as (s & Hrun & _).
  specialize (Hrun 0%nat). rewrite Nat.add_0_r in Hrun.
  exists s. split; [exact Hrun|].
  vm_compute in Hrun. injection Hrun as <-. reflexivity.
Qed.

(** *** The march that does not return *)

(** In the fog, where the scene distance is [skMinLength] everywhere, the
    shadow loop with the binary32 sum never leaves the times up to 2048. *)
Lemma fog_shadow_loop_stalls (fuel : nat) :
  forall (shadow : xreal32) (time : real32),
    0 <= time -> time <= 2048 ->
    MarchShadowRay_loop isqrtf fog_scene ray_z 3000 24 Binary32.add fuel
                        shadow time = None.
Proof.
  induction fuel as [|fuel IH]; intros shadow time Ht0 Ht1; [reflexivity|].
  rewrite MarchShadowRay_loop_S.
  replace (fltb time 3000) with true by (symmetry; apply fltb_lt; lra).
  cbv zeta.
  change (GetMinDistanceAtPoint isqrtf fog_scene
            (GetPositionAlongRay ray_z time)) with skMinLength.
  change (fltb skMinLength skMinLength) with false. cbv iota.
  destruct (add_stalls time Ht0 Ht1) as [Hlo Hhi].
  now apply IH.
Qed.

(** C6, at the failing input: in the fog, a shadow ray of length 3000 is
    marched for ever.  The time starts at 0 and grows by the scene distance
    [skMinLength], which never makes the march return 0; at 2048 the
    binary32 sum [time + skMinLength] is 2048 again, the loop condition
    [time < 3000] stays true, and the loop, which has no counter, returns
    for no number of iterations. *)
Theorem MarchShadowRay_stalls :
  forall fuel : nat,
    MarchShadowRay isqrtf fog_scene ray_z 3000 24 Binary32.add fuel = None.
Proof.
  intros fuel. unfold MarchShadowRay.
  apply fog_shadow_loop_stalls; [lra | discriminate].
Qed.

(** ** C8: calls made while a frame is in flight *)

(** C8: when [IsDone] is false, [RenderScene] and [Update] are no-ops:
    [RenderScene] returns the renderer as it was (tile list, cursor, buffer,
    scene and the count of wake-ups of the workers included) and [Update]
    leaves it unchanged too, in particular the time and the scene. *)
Theorem not_done_noop
    (sqrtf rsqrt_ss tanf : real32 -> real32)
    (hardware_concurrency skJobCoreMultiplier : Z)
    (BuildScene : CRenderScene -> real32 -> CRenderScene)
    (deltaTime : real32) (r : Render.CRenderer) :
  Render.IsDone r = false ->
  Render.RenderScene sqrtf hardware_concurrency skJobCoreMultiplier r = Some r
  /\ Render.Update rsqrt_ss tanf BuildScene deltaTime r = r
  /\ Render.mTime (Render.Update rsqrt_ss tanf BuildScene deltaTime r)
     = Render.mTime r
  /\ Render.mScene (Render.Update rsqrt_ss tanf BuildScene deltaTime r)
     = Render.mScene r.
Proof.
  intros Hbusy. unfold Render.RenderScene, Render.Update.
  rewrite Hbusy. repeat split.
Qed.

Lemma not_done_noop_witness :
  Render.RenderScene isqrtf 4 5 busy_renderer = Some busy_renderer
  /\ Render.Update isqrtf isqrtf (fun s _ => s) (1 # 10) busy_renderer
     = busy_renderer.
Proof.
  destruct (not_done_noop isqrtf isqrtf isqrtf 4 5 (fun s _ => s) (1 # 10)
                          busy_renderer eq_refl) as (H1 & H2 & _).
  split; [exact H1 | exact H2].
Defined.

(** With a finished frame both calls do act: the contrast to the above. *)
Lemma done_calls_act :
  Render.mSleepControl <$> Render.RenderScene isqrtf 4 5 idle_renderer = Some 2%nat
  /\ Render.mTime (Render.Update isqrtf isqrtf (fun s _ => s) (1 # 10) idle_renderer)
     == 1 # 10.
Proof. split; reflexivity. Qed.

(** ** Loops over [uint32_t] ranges *)

(** A unit-stride loop whose bound is a [uint32_t] value runs to its end
    when every iteration of the body is defined and keeps an invariant. *)
Lemma for_u32_inv {St : Type} (P : St -> Prop) (body : Z -> St -> option St)
    (to : Z) :
  (to < 2 ^ 32)%Z ->
  (forall v s, (0 <= v < to)%Z -> P s -> exists s', body v s = Some s' /\ P s') ->
  forall (fuel : nat) (v : Z) (s : St),
    (0 <= v)%Z -> (to - v <= Z.of_nat fuel)%Z -> P s ->
    exists s', Render.for_u32 fuel v to 1 body s = Some s' /\ P s'.
Proof.
  intros Hto Hbody.
  induction fuel as [|fuel IH]; intros v s Hv Hfuel HP; simpl.
  - destruct (v <? to)%Z eqn:E; [apply Z.ltb_lt in E; lia | eauto].
  - destruct (v <? to)%Z eqn:E; [apply Z.ltb_lt in E | eauto].
    destruct (Hbody v s) as (s1 & -> & HP1); [lia | exact HP |].
    unfold wrap32. rewrite Z.mod_small by lia.
    apply IH; [lia | lia | exact HP1].
Qed.

(** ** C10: pixel writes stay inside the buffer *)

Lemma pixel_index_in_buffer (r : Render.CRenderer) (x y : Z) :
  BufferOk r ->
  (0 <= x < Render.mBufferWidth r)%Z -> (0 <= y < Render.mBufferHeight r)%Z ->
  (0 <= wrap32 (y * Render.mBufferWidth r + x)
   < Z.of_nat (length (Render.mBuffer r)))%Z.
Proof.
  intros (Hw & Hh & Hlen) Hx Hy. unfold wrap32.
  assert (Hidx : (0 <= y * Render.mBufferWidth r + x
                  < Render.mBufferWidth r * Render.mBufferHeight r)%Z) by nia.
  pose proof (Z.mod_pos_bound (y * Render.mBufferWidth r + x) (2 ^ 32)) as Hm.
  pose proof (Z.mod_le (y * Render.mBufferWidth r + x) (2 ^ 32)) as Hle.
  lia.
Qed.

Lemma SetPixelColor_eq (r : Render.CRenderer) (x y : Z) (color : CColor4f) :
  BufferOk r -> (0 <= x)%Z -> (0 <= y)%Z ->
  Render.SetPixelColor x y color r =
  if (x <? Render.mBufferWidth r)%Z && (y <? Render.mBufferHeight r)%Z
  then Some (Render.set_buffer r
               (<[ Z.to_nat (wrap32 (y * Render.mBufferWidth r + x)) := color ]>
                  (Render.mBuffer r)))
  else Some r.
Proof.
  intros Hok Hx Hy. unfold Render.SetPixelColor.
  destruct (x <? Render.mBufferWidth r)%Z eqn:Ex; [|reflexivity].
  destruct (y <? Render.mBufferHeight r)%Z eqn:Ey; [|reflexivity].
  simpl. apply Z.ltb_lt in Ex, Ey.
  pose proof (pixel_index_in_buffer r x y Hok) as Hin.
  destruct (_ <? Z.of_nat _)%Z eqn:E; [reflexivity|].
  apply Z.ltb_ge in E. lia.
Qed.

Lemma SetPixelColor_defined (r : Render.CRenderer) (x y : Z) (color : CColor4f) :
  BufferOk r -> (0 <= x)%Z -> (0 <= y)%Z ->
  exists r', Render.SetPixelColor x y color r = Some r'
             /\ BufferOk r' /\ SameBuffer r r'
             /\ Render.mScene r' = Render.mScene r.
Proof.
  intros Hok Hx Hy. rewrite SetPixelColor_eq by assumption.
  destruct (_ && _).
  - eexists. split; [reflexivity|].
    unfold BufferOk, SameBuffer, Render.set_buffer; simpl.
    rewrite length_insert. destruct Hok as (? & ? & ?). repeat split; lia.
  - exists r. unfold SameBuffer. repeat split; apply Hok.
Qed.

(** A tile rendered by a worker: every pixel write is defined, and the
    buffer keeps its dimensions and its length. *)
Lemma ProcessWorkArea_defined
    (DoIntersection : CRenderScene -> Z -> Z -> CColor4f)
    (workArea : Render.SWorkArea) (r : Render.CRenderer) :
  BufferOk r -> TileOk workArea ->
  exists r', Render.ProcessWorkArea DoIntersection workArea r = Some r'
             /\ BufferOk r' /\ SameBuffer r r'.
Proof.
  intros Hok (Hx0 & Hx1 & Hy0 & Hy1).
  set (P := fun r' : Render.CRenderer => BufferOk r' /\ SameBuffer r r').
  assert (HP : P r) by (split; [exact Hok | repeat split]).
  assert (Hpixel : forall x y c s, P s ->
            exists s', Render.SetPixelColor (wrap32 x) (wrap32 y) c s = Some s'
                       /\ P s').
  { intros x y c s [Hs (Hsw & Hsh & Hsl)].
    destruct (SetPixelColor_defined s (wrap32 x) (wrap32 y) c Hs)
      as (s' & Hrun & Hs' & (Hw' & Hh' & Hl') & _);
      try (unfold wrap32; apply Z.mod_pos_bound; lia).
    exists s'. split; [exact Hrun|]. split; [exact Hs'|].
    repeat split; congruence. }
  unfold Render.ProcessWorkArea, skInitialStepSize.
  apply (for_u32_inv P); [exact Hy1 | | exact Hy0 | lia | exact HP].
  intros y s _ Hs.
  apply (for_u32_inv P); [exact Hx1 | | exact Hx0 | lia | exact Hs].
  intros x s1 _ Hs1.
  apply (for_u32_inv P); [lia | | lia | simpl; lia | exact Hs1].
  intros i s2 _ Hs2.
  apply (for_u32_inv P); [lia | | lia | simpl; lia | exact Hs2].
  intros j s3 _ Hs3. apply Hpixel, Hs3.
Qed.

(** C10: for every [x], [y] and colour, [SetPixelColor] writes the colour
    to the buffer cell of index [y * width + x] exactly when [x < width] and
    [y < height], and otherwise leaves the renderer, its buffer included,
    unchanged; the index is inside the [width * height] buffer, and no pixel
    write of a worker's tile loop falls outside it.  The index is computed
    in 32 bits; it is [y * width + x] itself for every buffer of at most
    [2 ^ 32] cells. *)
Theorem SetPixelColor_in_buffer (r : Render.CRenderer) :
  BufferOk r ->
  (forall x y color, (0 <= x)%Z -> (0 <= y)%Z ->
      Render.SetPixelColor x y color r =
      if (x <? Render.mBufferWidth r)%Z && (y <? Render.mBufferHeight r)%Z
      then Some (Render.set_buffer r
                   (<[ Z.to_nat (wrap32 (y * Render.mBufferWidth r + x)) := color ]>
                      (Render.mBuffer r)))
      else Some r)
  /\ (forall x y,
        (0 <= x < Render.mBufferWidth r)%Z -> (0 <= y < Render.mBufferHeight r)%Z ->
        (0 <= wrap32 (y * Render.mBufferWidth r + x)
         < Render.mBufferWidth r * Render.mBufferHeight r)%Z
        /\ ((Render.mBufferWidth r * Render.mBufferHeight r <= 2 ^ 32)%Z ->
            wrap32 (y * Render.mBufferWidth r + x)
            = (y * Render.mBufferWidth r + x)%Z))
  /\ (forall DoIntersection workArea,
        TileOk workArea ->
        exists r', Render.ProcessWorkArea DoIntersection workArea r = Some r'
                   /\ BufferOk r' /\ SameBuffer r r').
Proof.
  intros Hok. split; [|split].
  - intros. now apply SetPixelColor_eq.
  - intros x y Hx Hy. split.
    + pose proof (pixel_index_in_buffer r x y Hok Hx Hy) as H.
      destruct Hok as (_ & _ & <-). exact H.
    + intros Hsmall. unfold wrap32. apply Z.mod_small. nia.
  - intros. now apply ProcessWorkArea_defined.
Qed.

Lemma idle_renderer_ok : BufferOk idle_renderer.
Proof. repeat split; (discriminate || reflexivity). Qed.

(** In the 2 x 2 buffer the pixel (1,1) is cell 3, and the pixel (2,0) is
    outside. *)
Lemma SetPixelColor_in_buffer_witness :
  Render.mBuffer <$> Render.SetPixelColor 1 1 Col.Black idle_renderer
    = Some [Col.White; Col.White; Col.White; Col.Black]
  /\ Render.SetPixelColor 2 0 Col.Black idle_renderer = Some idle_renderer.
Proof.
  destruct (SetPixelColor_in_buffer idle_renderer idle_renderer_ok) as (H & _).
  split.
  - rewrite (H 1%Z 1%Z Col.Black) by discriminate. reflexivity.
  - rewrite (H 2%Z 0%Z Col.Black) by discriminate. reflexivity.
Defined.

(** ** C9: resizing to a zero-size buffer *)

(** C9, as stated: [ResizeBuffer] with width 0 or height 0 leaves the pixel
    buffer, the stored width and height and the scene size unchanged.  This
    fails: on the idle 2 x 2 renderer, [ResizeBuffer(0, 2)] finds the
    dimensions changed, replaces the four cells by an empty array and stores
    the width 0, in the renderer and in the scene's camera. *)
Lemma resize_zero_noop_refuted :
  ~ (forall (rsqrt_ss tanf : real32 -> real32) (r r' : Render.CRenderer)
            (width height : Z),
        (width = 0 \/ height = 0)%Z ->
        Render.ResizeBuffer rsqrt_ss tanf width height r = Some r' ->
        Render.mBuffer r' = Render.mBuffer r
        /\ Render.mBufferWidth r' = Render.mBufferWidth r
        /\ Render.mBufferHeight r' = Render.mBufferHeight r
        /\ mSceneWidth (mCamera (Render.mScene r'))
           = mSceneWidth (mCamera (Render.mScene r))
        /\ mSceneHeight (mCamera (Render.mScene r'))
           = mSceneHeight (mCamera (Render.mScene r))).
Proof.
  intros H.
  destruct (H isqrtf isqrtf idle_renderer _ 0%Z 2%Z (or_introl eq_refl) eq_refl)
    as (Hbuf & Hwidth & _).
  discriminate Hwidth.
Qed.

Lemma IsDone_loop_alter (areas : list Render.SWorkArea) (i : nat) :
  Render.IsDone_loop areas = true ->
  Render.IsDone_loop (alter Render.job_done i areas) = true.
Proof.
  revert i. induction areas as [|a areas IH]; intros i; [reflexivity|].
  simpl. destruct (Render.mJobDone a) eqn:Ea; simpl; [|discriminate].
  intros Hrest. destruct i as [|i]; simpl.
  - exact Hrest.
  - rewrite Ea. simpl. now apply IH.
Qed.

(** The marking loop of [Cancel] only touches the tile list and the
    cursor, and keeps a finished frame finished. *)
Lemma Cancel_loop_frame (fuel : nat) (r : Render.CRenderer) :
  let r1 := Render.Cancel_loop fuel r in
  Render.mBuffer r1 = Render.mBuffer r
  /\ Render.mBufferWidth r1 = Render.mBufferWidth r
  /\ Render.mBufferHeight r1 = Render.mBufferHeight r
  /\ Render.mScene r1 = Render.mScene r
  /\ Render.mTime r1 = Render.mTime r
  /\ Render.mSleepControl r1 = Render.mSleepControl r
  /\ length (Render.mWorkAreas r1) = length (Render.mWorkAreas r)
  /\ (Render.IsDone r = true -> Render.IsDone r1 = true).
Proof.
  revert r. induction fuel as [|fuel IH]; intros r; simpl.
  - repeat split; auto.
  - destruct (_ <? _)%Z; [|repeat split; auto].
    specialize (IH (Render.set_jobs r
                      (alter Render.job_done (Z.to_nat (Render.mCurrentWorkArea r))
                             (Render.mWorkAreas r))
                      (wrap32 (Render.mCurrentWorkArea r + 1)))).
    simpl in IH. destruct IH as (? & ? & ? & ? & ? & ? & Hlen & Hdone).
    rewrite length_alter in Hlen.
    repeat split; try assumption.
    intros Hr. apply Hdone. unfold Render.IsDone; simpl.
    now apply IsDone_loop_alter.
Qed.

(** With one dimension zero the fill loops of [ResizeBuffer] write
    nothing. *)
Lemma fill_zero_size (width height : Z) (c : CColor4f) (r : Render.CRenderer) :
  (0 <= width < 2 ^ 32)%Z -> (width = 0 \/ height = 0)%Z ->
  Render.for_u32 (Z.to_nat width) 0 width 1
    (fun x r => Render.for_u32 (Z.to_nat height) 0 height 1
                  (fun y r => Render.SetPixelColor x y c r) r) r
  = Some r.
Proof.
  intros Hw [-> | ->]; [reflexivity|].
  destruct (for_u32_inv (fun s => s = r)
              (fun x r => Render.for_u32 (Z.to_nat 0) 0 0 1
                            (fun y r => Render.SetPixelColor x y c r) r)
              width (proj2 Hw)) with (fuel := Z.to_nat width) (v := 0%Z) (s := r)
    as (s' & Hrun & ->); try lia; try reflexivity.
  - intros v s _ ->. exists r. split; reflexivity.
  - exact Hrun.
Qed.

(** [ResizeBuffer] with width 0 or height 0 on a renderer whose frame is
    finished. *)
Lemma resize_zero_size_done
    (rsqrt_ss tanf : real32 -> real32) (r : Render.CRenderer)
    (width height : Z) :
  Render.IsDone r = true ->
  (0 <= width < 2 ^ 32)%Z -> (0 <= height < 2 ^ 32)%Z ->
  (width = 0 \/ height = 0)%Z ->
  exists r',
    Render.ResizeBuffer rsqrt_ss tanf width height r = Some r'
    /\ Render.mWorkAreas r' = Render.mWorkAreas r
    /\ Render.mCurrentWorkArea r' = Render.mCurrentWorkArea r
    /\ Render.mSleepControl r' = Render.mSleepControl r
    /\ Render.mTime r' = Render.mTime r
    /\ Render.mBufferWidth r' = width
    /\ Render.mBufferHeight r' = height
    /\ Render.mBuffer r'
       = (if (width =? Render.mBufferWidth r)%Z
             && (height =? Render.mBufferHeight r)%Z
          then Render.mBuffer r else [])
    /\ mSceneWidth (mCamera (Render.mScene r')) = width
    /\ mSceneHeight (mCamera (Render.mScene r')) = height.
Proof.
  intros Hdone Hw Hh Hzero.
  unfold Render.ResizeBuffer. rewrite Hdone. simpl negb. cbv iota.
  destruct (width =? Render.mBufferWidth r)%Z eqn:Ew;
    [destruct (height =? Render.mBufferHeight r)%Z eqn:Eh|]; simpl.
  - apply Z.eqb_eq in Ew, Eh. eexists. split; [reflexivity|].
    simpl. repeat split; congruence.
  - rewrite fill_zero_size by assumption.
    eexists. split; [reflexivity|]. simpl.
    replace (width * height)%Z with 0%Z by (destruct Hzero; subst; lia).
    repeat split.
  - rewrite fill_zero_size by assumption.
    eexists. split; [reflexivity|]. simpl.
    replace (width * height)%Z with 0%Z by (destruct Hzero; subst; lia).
    repeat split.
Qed.

(** What [Cancel] hands back when it returns: the state after the marking
    loop, with every tile done. *)
Lemma Cancel_returns (r r1 : Render.CRenderer) :
  Render.Cancel r = Some r1 ->
  r1 = Render.Cancel_loop (length (Render.mWorkAreas r)) r
  /\ Render.IsDone r1 = true.
Proof.
  unfold Render.Cancel. cbv zeta.
  destruct (Render.IsDone (Render.Cancel_loop _ r)) eqn:Hdone; [|discriminate].
  intros H. injection H as <-. split; [reflexivity | exact Hdone].
Qed.

(** C9, amended: [ResizeBuffer] with width 0 or height 0 is not a no-op, in
    whatever state it is called.  Like every resize it first waits for the
    tiles in flight when the frame is not finished, and returns exactly when
    that wait does.  It then enqueues no frame (the tile list keeps its
    length, every tile counts as done, no worker is woken, the time is
    unchanged), but the scene size is set to the requested dimensions, the
    stored width and height become the requested ones, and the pixel buffer
    is replaced by an empty one unless the requested dimensions are the
    stored ones.  Zero-size requests are kept away from [ResizeBuffer] by
    its caller: for an [lParam] whose width or height is 0 the [WM_SIZE]
    handler does what its call of [Cancel] does and nothing more, so that
    the pixel buffer, the stored width and height, the scene, the time and
    the wake-ups are unchanged. *)
Theorem resize_zero_size
    (rsqrt_ss tanf : real32 -> real32) (r : Render.CRenderer) :
  (forall width height,
      (0 <= width < 2 ^ 32)%Z -> (0 <= height < 2 ^ 32)%Z ->
      (width = 0 \/ height = 0)%Z ->
      match (if negb (Render.IsDone r) then Render.Cancel r else Some r) with
      | None => Render.ResizeBuffer rsqrt_ss tanf width height r = None
      | Some r1 =>
          exists r',
            Render.ResizeBuffer rsqrt_ss tanf width height r = Some r'
            /\ Render.mWorkAreas r' = Render.mWorkAreas r1
            /\ Render.mCurrentWorkArea r' = Render.mCurrentWorkArea r1
            /\ length (Render.mWorkAreas r') = length (Render.mWorkAreas r)
            /\ Render.IsDone r' = true
            /\ Render.mSleepControl r' = Render.mSleepControl r
            /\ Render.mTime r' = Render.mTime r
            /\ Render.mBufferWidth r' = width
            /\ Render.mBufferHeight r' = height
            /\ Render.mBuffer r'
               = (if (width =? Render.mBufferWidth r)%Z
                     && (height =? Render.mBufferHeight r)%Z
                  then Render.mBuffer r else [])
            /\ mSceneWidth (mCamera (Render.mScene r')) = width
            /\ mSceneHeight (mCamera (Render.mScene r')) = height
      end)
  /\ (forall lParam,
        (fst (size_of_lParam lParam) = 0 \/ snd (size_of_lParam lParam) = 0)%Z ->
        Render.OnSize rsqrt_ss tanf lParam r = Render.Cancel r
        /\ forall r',
             Render.Cancel r = Some r' ->
             Render.mBuffer r' = Render.mBuffer r
             /\ Render.mBufferWidth r' = Render.mBufferWidth r
             /\ Render.mBufferHeight r' = Render.mBufferHeight r
             /\ Render.mScene r' = Render.mScene r
             /\ Render.mTime r' = Render.mTime r
             /\ Render.mSleepControl r' = Render.mSleepControl r
             /\ length (Render.mWorkAreas r') = length (Render.mWorkAreas r)).
Proof.
  split.
  - intros width height Hw Hh Hzero.
    destruct (Render.IsDone r) eqn:Hdone; simpl negb; cbv iota.
    + destruct (resize_zero_size_done rsqrt_ss tanf r width height
                  Hdone Hw Hh Hzero)
        as (r' & Hrun & Ha & Hc & Hn & Ht & Hbw & Hbh & Hb & Hsw & Hsh).
      exists r'.
      repeat match goal with |- _ /\ _ => split end;
        first [ assumption | (rewrite Ha; reflexivity)
              | (unfold Render.IsDone; rewrite Ha; exact Hdone) ].
    + destruct (Render.Cancel r) as [r1|] eqn:Hcancel.
      * destruct (Cancel_returns r r1 Hcancel) as (Hr1 & Hdone1).
        pose proof (Cancel_loop_frame (length (Render.mWorkAreas r)) r)
          as Hframe.
        cbv zeta in Hframe. rewrite <- Hr1 in Hframe.
        destruct Hframe as (Hb1 & Hw1 & Hh1 & Hs1 & Ht1 & Hn1 & Hl1 & _).
        destruct (resize_zero_size_done rsqrt_ss tanf r1 width height
                    Hdone1 Hw Hh Hzero)
          as (r' & Hrun & Ha & Hc & Hn & Ht & Hbw & Hbh & Hb & Hsw & Hsh).
        exists r'.
        assert (Hsame : Render.ResizeBuffer rsqrt_ss tanf width height r
                        = Render.ResizeBuffer rsqrt_ss tanf width height r1).
        { unfold Render.ResizeBuffer.
          rewrite Hdone, Hdone1, Hcancel. reflexivity. }
        repeat match goal with |- _ /\ _ => split end;
          first [ assumption | congruence
                | (unfold Render.IsDone; rewrite Ha; exact Hdone1)
                | (rewrite Hb, Hw1, Hh1, Hb1; reflexivity) ].
      * unfold Render.ResizeBuffer. rewrite Hdone, Hcancel. reflexivity.
  - intros lParam Hzero. split.
    + unfold Render.OnSize.
      destruct (Render.Cancel r) as [r1|] eqn:Hcancel; [|reflexivity].
      destruct (Cancel_returns r r1 Hcancel) as (_ & Hdone1).
      rewrite Hdone1.
      unfold size_of_lParam in Hzero. simpl in Hzero.
      replace (negb _ && negb _) with false; [reflexivity|].
      symmetry. apply andb_false_iff.
      destruct Hzero as [-> | ->]; [left | right]; reflexivity.
    + intros r' Hcancel.
      destruct (Cancel_returns r r' Hcancel) as (Hr' & _).
      pose proof (Cancel_loop_frame (length (Render.mWorkAreas r)) r)
        as Hframe.
      cbv zeta in Hframe. rewrite <- Hr' in Hframe.
      destruct Hframe as (Hb1 & Hw1 & Hh1 & Hs1 & Ht1 & Hn1 & Hl1 & _).
      repeat match goal with |- _ /\ _ => split end; assumption.
Qed.

(** In the middle of a frame, with the second tile not yet handed out:
    [ResizeBuffer(0, 2)] returns, empties the buffer and stores the width 0,
    while the handler called for a window of width 0 keeps the four
    cells. *)
Lemma resize_zero_size_witness :
  (exists r', Render.ResizeBuffer isqrtf isqrtf 0 2 half_done_renderer = Some r'
              /\ Render.mBufferWidth r' = 0%Z /\ Render.mBuffer r' = [])
  /\ (exists r', Render.OnSize isqrtf isqrtf (2 * 65536) half_done_renderer
                 = Some r'
                 /\ Render.mBuffer r' = Render.mBuffer half_done_renderer).
Proof.
  destruct (resize_zero_size isqrtf isqrtf half_done_renderer) as [Hr Hs].
  split.
  - specialize (Hr 0%Z 2%Z ltac:(lia) ltac:(lia) (or_introl eq_refl)).
    change (if negb (Render.IsDone half_done_renderer)
            then Render.Cancel half_done_renderer
            else Some half_done_renderer)
      with (Some (Render.Cancel_loop 2 half_done_renderer)) in Hr.
    destruct Hr as (r' & Hrun & _ & _ & _ & _ & _ & _ & Hw & _ & Hb & _).
    exists r'. repeat split; assumption.
  - destruct (Hs (2 * 65536)%Z (or_introl eq_refl)) as (Hrun & Hkeep).
    eexists. split; [rewrite Hrun; reflexivity|].
    apply (Hkeep _ eq_refl).
Defined.

(** The dimensions the window hands to [ResizeBuffer] are 16-bit words, the
    width rounded up to a multiple of 4: such a buffer has fewer than
    [2 ^ 32] cells. *)
Lemma size_of_lParam_small (lParam : Z) :
  (0 <= fst (size_of_lParam lParam) <= 65536
   /\ 0 <= snd (size_of_lParam lParam) <= 65535
   /\ fst (size_of_lParam lParam) * snd (size_of_lParam lParam) <= 2 ^ 32)%Z.
Proof.
  assert (Hmask : forall x, Z.land x 65535 = (x mod 2 ^ 16)%Z).
  { intros x. change 65535%Z with (Z.ones 16). apply Z.land_ones. lia. }
  assert (Hround : forall x, Z.land x (Z.lnot 3) = (x / 2 ^ 2 * 2 ^ 2)%Z).
  { intros x. rewrite <- Z.ldiff_land. change 3%Z with (Z.ones 2).
    rewrite Z.ldiff_ones_r by lia.
    now rewrite Z.shiftr_div_pow2, Z.shiftl_mul_pow2 by lia. }
  unfold size_of_lParam, Render.LOWORD, Render.HIWORD, wrap32; simpl fst; simpl snd.
  rewrite !Hmask, Hround.
  pose proof (Z.mod_pos_bound lParam (2 ^ 16)) as Hl.
  pose proof (Z.mod_pos_bound (Z.shiftr lParam 16) (2 ^ 16)) as Hh.
  set (lo := (lParam mod 2 ^ 16)%Z) in *.
  set (hi := (Z.shiftr lParam 16 mod 2 ^ 16)%Z) in *.
  assert (Hq : (0 <= (lo + 3) / 2 ^ 2 * 2 ^ 2 <= 65536)%Z).
  { pose proof (Z.div_mod (lo + 3) (2 ^ 2)).
    pose proof (Z.mod_pos_bound (lo + 3) (2 ^ 2)). lia. }
  rewrite !Z.mod_small by lia.
  split; [lia|]. split; [lia|].
  apply Z.le_trans with (65536 * 65535)%Z; [|discriminate].
  apply Z.mul_le_mono_nonneg; lia.
Qed.

(** * Further properties of the code *)

(** Splits a conjunction into its parts, and nothing else. *)
Ltac split_all := repeat match goal with |- _ /\ _ => split end.

(** ** Scalar helpers ([namespace NMath], [namespace NScene]) *)

(** [NMath::clamp(lhs, value, rhs)] clamps [value] to the interval from
    [rhs] up to [lhs]: it is a clamp when the upper bound is passed first.
    Called with the lower bound first, as [NScene::clamp] does, it returns
    one of the two bounds whatever the value: the lower bound for a value
    above it, and the upper bound otherwise. *)
Theorem clamp_argument_order (lhs value rhs : real32) :
  (rhs <= lhs -> NMath.clamp lhs value rhs == Qmax rhs (Qmin lhs value))
  /\ (lhs < rhs ->
      NScene.clamp lhs value rhs == (if fltb lhs value then lhs else rhs)).
Proof.
  unfold NScene.clamp, NMath.clamp. split; intros Hord.
  - destruct (Q.min_spec lhs value) as [[? Hmin]|[? Hmin]];
      rewrite Hmin;
      destruct (Q.max_spec rhs lhs) as [[? Hmax]|[? Hmax]];
      destruct (Q.max_spec rhs value) as [[? Hmax']|[? Hmax']];
      rewrite ?Hmax, ?Hmax'; fcases; lra.
  - fcases; lra.
Qed.

(** With the bounds 0 and 1: passed upper bound first the value 1/2 is
    kept; passed lower bound first it becomes 0. *)
Lemma clamp_argument_order_witness :
  NMath.clamp 1 (1 # 2) 0 == 1 # 2 /\ NScene.clamp 0 (1 # 2) 1 == 0.
Proof.
  split.
  - rewrite (proj1 (clamp_argument_order 1 (1 # 2) 0)); [reflexivity|discriminate].
  - rewrite (proj2 (clamp_argument_order 0 (1 # 2) 1)); reflexivity.
Defined.

Lemma NextPowerOfTwo_loop_spec (fuel : nat) :
  forall i value : Z,
    (0 <= i)%Z -> (i + Z.of_nat fuel = 32)%Z -> (0 <= value)%Z ->
    (0 < i -> 2 ^ (i - 1) < value)%Z ->
    ((value <= 2 ^ 31)%Z ->
     exists k, (i <= k <= 31)%Z
               /\ NMath.NextPowerOfTwo_loop fuel i value = (2 ^ k)%Z
               /\ (value <= 2 ^ k)%Z /\ (0 < k -> 2 ^ (k - 1) < value)%Z)
    /\ ((2 ^ 31 < value)%Z ->
        NMath.NextPowerOfTwo_loop fuel i value = (2 ^ 31)%Z).
Proof.
  induction fuel as [|fuel IH]; intros i value Hi Hsum Hvalue Hprev.
  - assert (i = 32%Z) by lia. subst i. simpl. split; [|reflexivity].
    intros Hsmall. specialize (Hprev ltac:(lia)). simpl in Hprev. lia.
  - assert (Hi31 : (i <= 31)%Z) by lia.
    assert (Hpow : wrap32 (Z.shiftl 1 i) = (2 ^ i)%Z).
    { rewrite Z.shiftl_1_l. unfold wrap32. apply Z.mod_small.
      split; [apply Z.pow_nonneg; lia|].
      apply Z.pow_lt_mono_r; lia. }
    assert (Hle : (2 ^ i <= 2 ^ 31)%Z) by (apply Z.pow_le_mono_r; lia).
    simpl. rewrite Hpow.
    destruct (2 ^ i >=? value)%Z eqn:E.
    + apply Z.geb_le in E. split; [|lia].
      intros _. exists i. split_all; (lia || exact Hprev).
    + rewrite Z.geb_leb in E. apply Z.leb_gt in E.
      destruct (IH (i + 1)%Z value) as [IHsmall IHlarge]; try lia.
      { intros _. replace (i + 1 - 1)%Z with i by lia. exact E. }
      split; [|exact IHlarge].
      intros Hsmall. destruct (IHsmall Hsmall) as (k & Hk & Hres & Hge & Hmin).
      exists k. split_all; (lia || assumption).
Qed.

(** [NMath::NextPowerOfTwo] on a [uint32_t]: up to [2^31] the result is the
    least power of two that is not below the value (1 for the value 0);
    above [2^31] no such power fits and the result is [2^31], which is
    below the value. *)
Theorem NextPowerOfTwo_least (value : Z) :
  (0 <= value < 2 ^ 32)%Z ->
  ((value <= 2 ^ 31)%Z ->
   exists k, (0 <= k <= 31)%Z
             /\ NMath.NextPowerOfTwo value = (2 ^ k)%Z
             /\ (value <= 2 ^ k)%Z /\ (0 < k -> 2 ^ (k - 1) < value)%Z)
  /\ ((2 ^ 31 < value)%Z -> NMath.NextPowerOfTwo value = (2 ^ 31)%Z).
Proof.
  intros Hvalue. unfold NMath.NextPowerOfTwo.
  apply NextPowerOfTwo_loop_spec; lia.
Qed.

Lemma NextPowerOfTwo_least_witness :
  (exists k, NMath.NextPowerOfTwo 641 = (2 ^ k)%Z /\ (641 <= 2 ^ k)%Z
             /\ (2 ^ (k - 1) < 641)%Z)
  /\ NMath.NextPowerOfTwo 3000000000 = (2 ^ 31)%Z.
Proof.
  split.
  - destruct (proj1 (NextPowerOfTwo_least 641 ltac:(lia)) ltac:(lia))
      as (k & Hk & Hres & Hge & Hmin).
    exists k. split_all; [exact Hres | exact Hge |].
    apply Hmin. destruct (Z.eq_dec k 0%Z) as [->|]; [simpl in Hge; lia | lia].
  - apply (proj2 (NextPowerOfTwo_least 3000000000 ltac:(lia))). lia.
Defined.

(** ** Union and the scene distance *)








(** ** Smooth union *)









(** ** Blend at whole indices *)

Lemma lerp_ends (a b : Q) : NMath.lerp a b 0 == a /\ NMath.lerp a b 1 == b.
Proof. unfold NMath.lerp. split; ring. Qed.



(** ** The closest object *)



(** ** The result of the primary-ray march *)





(** ** Materials *)

Lemma Qfloor_plus_1 (x : Q) : Qfloor (x + 1) = (Qfloor x + 1)%Z.
Proof.
  destruct x as [a b]. unfold Qfloor, Qplus; simpl.
  rewrite Z.mul_1_r, Pos.mul_1_r.
  apply Z.div_add. discriminate.
Qed.

Lemma Qfloor_plus_0 (x : Q) : Qfloor (x + 0) = Qfloor x.
Proof. apply Qfloor_comp. ring. Qed.

Lemma land_1_succ (s : Z) :
  (Z.land (s + 1) 1 =? 0)%Z = negb (Z.land s 1 =? 0)%Z.
Proof.
  assert (Hbit : forall z, Z.land z 1 = (z mod 2)%Z).
  { intros z. change 1%Z with (Z.ones 1). now rewrite Z.land_ones by lia. }
  rewrite !Hbit.
  destruct (Z.eqb_spec ((s + 1) mod 2) 0%Z), (Z.eqb_spec (s mod 2) 0%Z);
    cbn [negb]; try reflexivity; exfalso; Z.div_mod_to_equations; lia.
Qed.

(** The checker material has period 2 with the colours exchanged half-way:
    one unit further along any axis the colour is the other one of the two,
    that is the colour the checker with its colours swapped has at the
    point itself. *)
Theorem checker_alternates
    (sqrtf : real32 -> real32) (base : Material.Base)
    (mColor0 mColor1 : CColor4f) (point : CVector3f) :
  let here := Material.GetColorAtPoint sqrtf
                (Material.CCheckerMaterialObject base mColor1 mColor0) point in
  Material.GetColorAtPoint sqrtf
    (Material.CCheckerMaterialObject base mColor0 mColor1)
    (Vec.add point (mkVector 1 0 0)) = here
  /\ Material.GetColorAtPoint sqrtf
       (Material.CCheckerMaterialObject base mColor0 mColor1)
       (Vec.add point (mkVector 0 1 0)) = here
  /\ Material.GetColorAtPoint sqrtf
       (Material.CCheckerMaterialObject base mColor0 mColor1)
       (Vec.add point (mkVector 0 0 1)) = here.
Proof.
  destruct point as [x y z]. cbv zeta.
  unfold Material.GetColorAtPoint, Material.Checker_color, Vec.add.
  cbv [mX mY mZ].
  rewrite !Qfloor_plus_1, !Qfloor_plus_0.
  set (s := (Qfloor x + Qfloor y + Qfloor z)%Z).
  replace (Qfloor x + 1 + Qfloor y + Qfloor z)%Z with (s + 1)%Z by (unfold s; lia).
  replace (Qfloor x + (Qfloor y + 1) + Qfloor z)%Z with (s + 1)%Z by (unfold s; lia).
  replace (Qfloor x + Qfloor y + (Qfloor z + 1))%Z with (s + 1)%Z by (unfold s; lia).
  rewrite land_1_succ.
  destruct (Z.land s 1 =? 0)%Z; repeat split.
Qed.

(** ** Colours *)

Lemma byte_channel_range (b : Z) :
  (0 <= b <= 255)%Z -> 0 <= inject_Z b / 255 /\ inject_Z b / 255 <= 1.
Proof.
  intros Hb.
  assert (H0 : 0 <= inject_Z b) by (change 0 with (inject_Z 0); rewrite <- Zle_Qle; lia).
  assert (H1 : inject_Z b <= 255)
    by (change 255 with (inject_Z 255); rewrite <- Zle_Qle; lia).
  split; [apply Qle_shift_div_l | apply Qle_shift_div_r]; lra.
Qed.

(** The colour code is read as [0xRRGGBB]: for bytes [r], [g] and [b] the
    colour of the code [r * 2^16 + g * 2^8 + b], whatever is added above
    its low 24 bits, has the channels [r / 255], [g / 255] and [b / 255],
    each between 0 and 1. *)
Theorem FromCode_channels (top r g b : Z) :
  (0 <= r <= 255)%Z -> (0 <= g <= 255)%Z -> (0 <= b <= 255)%Z ->
  Col.FromCode (top * 2 ^ 24 + r * 2 ^ 16 + g * 2 ^ 8 + b)
  = mkColor (inject_Z r / 255) (inject_Z g / 255) (inject_Z b / 255)
  /\ (0 <= inject_Z r / 255 /\ inject_Z r / 255 <= 1)
  /\ (0 <= inject_Z g / 255 /\ inject_Z g / 255 <= 1)
  /\ (0 <= inject_Z b / 255 /\ inject_Z b / 255 <= 1).
Proof.
  intros Hr Hg Hb.
  split; [|split_all; now apply byte_channel_range].
  unfold Col.FromCode.
  assert (Hbyte : forall n, (0 <= n)%Z ->
            Z.land (Z.shiftr (top * 2 ^ 24 + r * 2 ^ 16 + g * 2 ^ 8 + b) n) 255
            = ((top * 2 ^ 24 + r * 2 ^ 16 + g * 2 ^ 8 + b) / 2 ^ n mod 256)%Z).
  { intros n Hn. change 255%Z with (Z.ones 8).
    rewrite Z.land_ones by lia. now rewrite Z.shiftr_div_pow2 by lia. }
  rewrite !Hbyte by lia.
  change (2 ^ 24)%Z with 16777216%Z. change (2 ^ 16)%Z with 65536%Z.
  change (2 ^ 8)%Z with 256%Z. change (2 ^ 0)%Z with 1%Z.
  replace ((top * 16777216 + r * 65536 + g * 256 + b) / 65536 mod 256)%Z with r
    by (Z.div_mod_to_equations; lia).
  replace ((top * 16777216 + r * 65536 + g * 256 + b) / 256 mod 256)%Z with g
    by (Z.div_mod_to_equations; lia).
  replace ((top * 16777216 + r * 65536 + g * 256 + b) / 1 mod 256)%Z with b
    by (Z.div_mod_to_equations; lia).
  reflexivity.
Qed.

(** The colour [steel_blue] of the scene description, [0x4682b4]. *)
Lemma FromCode_channels_witness :
  Col.FromCode 4620980
  = mkColor (inject_Z 70 / 255) (inject_Z 130 / 255) (inject_Z 180 / 255).
Proof.
  apply (FromCode_channels 0 70 130 180); lia.
Defined.

(** ** The camera *)


(** ** Painting the buffer *)

(** A unit-stride loop from [from] with an invariant that follows the loop
    variable. *)
Lemma for_u32_inv_at {St : Type} (P : Z -> St -> Prop)
    (body : Z -> St -> option St) (from to : Z) :
  (0 <= from)%Z -> (to < 2 ^ 32)%Z ->
  (forall v s, (from <= v < to)%Z -> P v s ->
               exists s', body v s = Some s' /\ P (v + 1)%Z s') ->
  forall (fuel : nat) (v : Z) (s : St),
    (from <= v)%Z -> (to - v <= Z.of_nat fuel)%Z -> P v s ->
    exists s', Render.for_u32 fuel v to 1 body s = Some s' /\ P (Z.max v to) s'.
Proof.
  intros Hfrom Hto Hbody.
  induction fuel as [|fuel IH]; intros v s Hv Hfuel HP; simpl.
  - destruct (v <? to)%Z eqn:E; [apply Z.ltb_lt in E; lia|].
    apply Z.ltb_ge in E. rewrite Z.max_l by lia. eauto.
  - destruct (v <? to)%Z eqn:E.
    + apply Z.ltb_lt in E.
      destruct (Hbody v s) as (s1 & -> & HP1); [lia | exact HP |].
      unfold wrap32. rewrite Z.mod_small by lia.
      destruct (IH (v + 1)%Z s1) as (s' & Hrun & HP'); [lia | lia | exact HP1 |].
      exists s'. split; [exact Hrun|].
      rewrite Z.max_r in * by lia. exact HP'.
    + apply Z.ltb_ge in E. rewrite Z.max_l by lia. eauto.
Qed.


Lemma set_buffer_same (r : Render.CRenderer) :
  Render.set_buffer r (Render.mBuffer r) = r.
Proof. destruct r; reflexivity. Qed.

Lemma Painted_nothing image (r : Render.CRenderer) :
  Painted (fun _ _ => false) image r r.
Proof.
  unfold Painted.
  split_all; [symmetry; apply set_buffer_same | reflexivity | reflexivity].
Qed.

Lemma Painted_ext (region region' : Z -> Z -> bool) image r s :
  (forall x y, (0 <= x < Render.mBufferWidth r)%Z ->
               (0 <= y < Render.mBufferHeight r)%Z ->
               region x y = region' x y) ->
  Painted region image r s -> Painted region' image r s.
Proof.
  intros Hext (Hs & Hlen & Hpix). unfold Painted.
  split_all; [exact Hs | exact Hlen |].
  intros x y Hx Hy. rewrite <- (Hext x y Hx Hy). now apply Hpix.
Qed.

Lemma Painted_fields region image r s :
  Painted region image r s ->
  Render.mBufferWidth s = Render.mBufferWidth r
  /\ Render.mBufferHeight s = Render.mBufferHeight r
  /\ Render.mScene s = Render.mScene r
  /\ Render.mTime s = Render.mTime r
  /\ Render.mWorkAreas s = Render.mWorkAreas r
  /\ Render.mCurrentWorkArea s = Render.mCurrentWorkArea r
  /\ Render.mSleepControl s = Render.mSleepControl r.
Proof. intros (-> & _). split_all; reflexivity. Qed.

(** Two pixels of the buffer with the same cell are the same pixel. *)
Lemma pixel_index_inj (w x y x' y' : Z) :
  (0 <= x < w)%Z -> (0 <= x' < w)%Z -> (0 <= y)%Z -> (0 <= y')%Z ->
  (y * w + x = y' * w + x')%Z -> x = x' /\ y = y'.
Proof.
  intros Hx Hx' Hy Hy' Heq.
  destruct (Z.lt_trichotomy y y') as [H|[H|H]]; [exfalso; nia | split; nia | exfalso; nia].
Qed.

(** One guarded pixel write adds the pixel to the painted region. *)
Lemma Painted_SetPixelColor region image (r s : Render.CRenderer) (x y : Z) :
  BufferOk r ->
  (Render.mBufferWidth r * Render.mBufferHeight r <= 2 ^ 32)%Z ->
  Painted region image r s -> (0 <= x)%Z -> (0 <= y)%Z ->
  exists s',
    Render.SetPixelColor x y (image x y) s = Some s'
    /\ Painted (fun a b => region a b || ((a =? x)%Z && (b =? y)%Z)) image r s'.
Proof.
  intros Hok Hsmall HP Hx Hy.
  pose proof (Painted_fields _ _ _ _ HP) as (Hw & Hh & _).
  destruct HP as (Hs & Hlen & Hpix).
  assert (Hoks : BufferOk s).
  { unfold BufferOk in *. rewrite Hw, Hh, Hlen. exact Hok. }
  rewrite (SetPixelColor_eq s x y (image x y) Hoks Hx Hy), Hw, Hh.
  destruct (x <? Render.mBufferWidth r)%Z eqn:Ex;
    [destruct (y <? Render.mBufferHeight r)%Z eqn:Ey|]; simpl.
  - apply Z.ltb_lt in Ex, Ey.
    eexists. split; [reflexivity|].
    pose proof (pixel_index_in_buffer s x y Hoks) as Hin.
    rewrite Hw, Hh in Hin. specialize (Hin ltac:(lia) ltac:(lia)).
    assert (Hidx : wrap32 (y * Render.mBufferWidth r + x)
                   = (y * Render.mBufferWidth r + x)%Z).
    { unfold wrap32. apply Z.mod_small. nia. }
    rewrite Hidx in *. unfold Painted.
    split_all.
    + rewrite Hs at 1. reflexivity.
    + simpl. rewrite length_insert. exact Hlen.
    + intros a b Ha Hb. unfold pixel at 1. simpl. rewrite Hw.
      destruct ((a =? x)%Z && (b =? y)%Z) eqn:E.
      * apply andb_true_iff in E as [Ea Eb].
        apply Z.eqb_eq in Ea, Eb. subst a b.
        rewrite orb_true_r. apply list_lookup_insert_eq. lia.
      * rewrite orb_false_r, list_lookup_insert_ne.
        { specialize (Hpix a b Ha Hb). unfold pixel at 1 in Hpix.
          rewrite Hw in Hpix. exact Hpix. }
        intros Heq.
        assert (Heq' : (y * Render.mBufferWidth r + x
                        = b * Render.mBufferWidth r + a)%Z)
          by (apply Z2Nat.inj; [nia | nia | exact Heq]).
        destruct (pixel_index_inj (Render.mBufferWidth r) x y a b ltac:(lia) ltac:(lia) ltac:(lia)
                    ltac:(lia) Heq') as [<- <-].
        rewrite !Z.eqb_refl in E. discriminate.
  - apply Z.ltb_lt in Ex. apply Z.ltb_ge in Ey.
    exists s. split; [reflexivity|]. unfold Painted.
    split_all; [exact Hs | exact Hlen |].
    intros a b Ha Hb. rewrite (Hpix a b Ha Hb).
    replace (b =? y)%Z with false by (symmetry; apply Z.eqb_neq; lia).
    now rewrite andb_false_r, orb_false_r.
  - apply Z.ltb_ge in Ex.
    exists s. split; [reflexivity|]. unfold Painted.
    split_all; [exact Hs | exact Hlen |].
    intros a b Ha Hb. rewrite (Hpix a b Ha Hb).
    replace (a =? x)%Z with false by (symmetry; apply Z.eqb_neq; lia).
    now rewrite orb_false_r.
Qed.

(** Decides the equality of two boolean regions by the order of the
    coordinates. *)
Ltac region_cases :=
  cbv beta;
  repeat match goal with
    | |- context [(?a <=? ?b)%Z] => destruct (Z.leb_spec a b)
    | |- context [(?a <? ?b)%Z] => destruct (Z.ltb_spec a b)
    | |- context [(?a =? ?b)%Z] => destruct (Z.eqb_spec a b)
    end;
  simpl; try reflexivity; exfalso; lia.




(** A buffer whose every pixel holds the same colour is the replicated
    colour. *)
Lemma painted_everywhere_replicate (r s : Render.CRenderer) (c : CColor4f) :
  BufferOk r ->
  Painted (fun _ _ => true) (fun _ _ => c) r s ->
  Render.mBuffer s
  = replicate (Z.to_nat (Render.mBufferWidth r * Render.mBufferHeight r)) c.
Proof.
  intros (Hw & Hh & Hlen) HP.
  pose proof (Painted_fields _ _ _ _ HP) as (Hws & _).
  destruct HP as (_ & Hlens & Hpix).
  set (w := Render.mBufferWidth r) in *. set (h := Render.mBufferHeight r) in *.
  apply (list_eq_same_length _ _ (Z.to_nat (w * h))).
  - apply length_replicate.
  - rewrite Hlens. lia.
  - intros i x y Hi Hx Hy.
    rewrite lookup_replicate_2 in Hy by exact Hi. injection Hy as <-.
    assert (Hwpos : (0 < w)%Z) by nia.
    pose proof (Z.div_mod (Z.of_nat i) w ltac:(lia)) as Hdm.
    pose proof (Z.mod_pos_bound (Z.of_nat i) w Hwpos) as Hm.
    assert (Hq : (0 <= Z.of_nat i / w < h)%Z).
    { split; [apply Z.div_pos; lia|].
      apply Z.div_lt_upper_bound; [lia|]. lia. }
    specialize (Hpix (Z.of_nat i mod w)%Z (Z.of_nat i / w)%Z Hm Hq).
    unfold pixel in Hpix. rewrite Hws in Hpix.
    replace (Z.to_nat (Z.of_nat i / w * w + Z.of_nat i mod w)) with i in Hpix
      by lia.
    cbv beta iota in Hpix. rewrite Hpix in Hx. now injection Hx.
Qed.

(** [ResizeBuffer] on a renderer whose frame is finished, for dimensions
    that differ from the stored ones and address at most [2 ^ 32] cells:
    the new buffer has one cell per pixel, each holding the fill colour
    (0.5, 0.6, 0.7); the dimensions are stored in the renderer and in the
    scene's camera; the buffer invariant holds afterwards; tile list,
    cursor, time and wake-ups are untouched. *)
Theorem ResizeBuffer_fills
    (rsqrt_ss tanf : real32 -> real32) (width height : Z)
    (r : Render.CRenderer) :
  Render.IsDone r = true ->
  (0 <= width < 2 ^ 32)%Z -> (0 <= height < 2 ^ 32)%Z ->
  (width * height <= 2 ^ 32)%Z ->
  (width =? Render.mBufferWidth r)%Z && (height =? Render.mBufferHeight r)%Z
    = false ->
  exists r',
    Render.ResizeBuffer rsqrt_ss tanf width height r = Some r'
    /\ Render.mBuffer r' = replicate (Z.to_nat (width * height)) fill_color
    /\ Render.mBufferWidth r' = width /\ Render.mBufferHeight r' = height
    /\ BufferOk r'
    /\ mSceneWidth (mCamera (Render.mScene r')) = width
    /\ mSceneHeight (mCamera (Render.mScene r')) = height
    /\ Render.mWorkAreas r' = Render.mWorkAreas r
    /\ Render.mCurrentWorkArea r' = Render.mCurrentWorkArea r
    /\ Render.mTime r' = Render.mTime r
    /\ Render.mSleepControl r' = Render.mSleepControl r.
Proof.
  intros Hdone Hw Hh Hsmall Hdiff.
  unfold Render.ResizeBuffer. rewrite Hdone. simpl negb. cbv iota.
  replace (negb (width =? Render.mBufferWidth r)%Z
           || negb (height =? Render.mBufferHeight r)%Z) with true
    by (rewrite <- negb_andb, Hdiff; reflexivity).
  set (r2 := Render.mkRenderer width height (Render.mTime r)
               (replicate (Z.to_nat (width * height)) Col.Black)
               (Render.mScene r) (Render.mWorkAreas r)
               (Render.mCurrentWorkArea r) (Render.mShutdown r)
               (Render.mSleepControl r)).
  assert (Hok2 : BufferOk r2).
  { unfold BufferOk, r2; simpl. rewrite length_replicate. split_all; lia. }
  set (image := fun _ _ : Z => fill_color).
  destruct (for_u32_inv_at
              (fun v s => Painted (fun a _ => (a <? v)%Z) image r2 s)
              (fun x r0 =>
                 Render.for_u32 (Z.to_nat height) 0 height 1
                   (fun y r1 => Render.SetPixelColor x y fill_color r1) r0)
              0%Z width ltac:(lia) (proj2 Hw))
    with (fuel := Z.to_nat width) (v := 0%Z) (s := r2)
    as (r3 & Hrun & Hpaint); try lia.
  - intros x s Hx HP.
    destruct (for_u32_inv_at
                (fun v s1 =>
                   Painted (fun a b => (a <? x)%Z || ((a =? x)%Z && (b <? v)%Z))
                           image r2 s1)
                (fun y r1 => Render.SetPixelColor x y fill_color r1)
                0%Z height ltac:(lia) (proj2 Hh))
      with (fuel := Z.to_nat height) (v := 0%Z) (s := s)
      as (s' & Hrun & Hpaint); try lia.
    + intros y s1 Hy HQ.
      destruct (Painted_SetPixelColor _ image r2 s1 x y Hok2 Hsmall HQ)
        as (s2 & Hset & HQ'); try lia.
      exists s2. split; [exact Hset|].
      eapply Painted_ext; [|exact HQ'].
      intros a b _ _. region_cases.
    + eapply Painted_ext; [|exact HP].
      intros a b _ Hb. simpl in Hb. region_cases.
    + exists s'. split; [exact Hrun|].
      eapply Painted_ext; [|exact Hpaint].
      intros a b _ Hb. simpl in Hb. region_cases.
  - eapply Painted_ext; [|apply Painted_nothing].
    intros a b Ha _. simpl in Ha. region_cases.
  - change (mkColor (1 # 2) (3 # 5) (7 # 10)) with fill_color. rewrite Hrun.
    assert (Hall : Painted (fun _ _ => true) image r2 r3).
    { rewrite Z.max_r in Hpaint by lia.
      eapply Painted_ext; [|exact Hpaint].
      intros a b Ha _. simpl in Ha. region_cases. }
    pose proof (painted_everywhere_replicate r2 r3 fill_color Hok2 Hall) as Hbuf.
    pose proof (Painted_fields _ _ _ _ Hall)
      as (Hw3 & Hh3 & Hs3 & Ht3 & Ha3 & Hc3 & Hn3).
    destruct Hall as (_ & Hlen3 & _).
    eexists. split; [reflexivity|]. simpl.
    split_all;
      first [ exact Hbuf | exact Hw3 | exact Hh3 | exact Ha3 | exact Hc3
            | exact Ht3 | exact Hn3 | reflexivity | idtac ].
    unfold BufferOk; simpl. rewrite Hw3, Hh3, Hlen3. exact Hok2.
Qed.

(** The idle 2 x 2 renderer resized to 3 x 1. *)
Lemma ResizeBuffer_fills_witness :
  Render.mBuffer <$> Render.ResizeBuffer isqrtf isqrtf 3 1 idle_renderer
  = Some [fill_color; fill_color; fill_color].
Proof.
  destruct (ResizeBuffer_fills isqrtf isqrtf 3 1 idle_renderer eq_refl
              ltac:(lia) ltac:(lia) ltac:(discriminate) eq_refl)
    as (r' & -> & Hbuf & _).
  simpl. now rewrite Hbuf.
Defined.

(** ** Cancelling a frame *)

Lemma IsDone_loop_lookup (areas : list Render.SWorkArea) :
  Render.IsDone_loop areas = true
  <-> forall i w, areas !! i = Some w -> Render.mJobDone w = true.
Proof.
  induction areas as [|a areas IH]; simpl.
  - split; [intros _ i w H; destruct i; discriminate | reflexivity].
  - destruct (Render.mJobDone a) eqn:Ea; simpl.
    + rewrite IH. split.
      * intros H [|i] w Hw; simpl in Hw; [injection Hw as <-; exact Ea | eauto].
      * intros H i w Hw. apply (H (S i) w). exact Hw.
    + split; [discriminate|]. intros H.
      specialize (H 0%nat a eq_refl). congruence.
Qed.


(** The marking loop sets the flag of every tile from the cursor on and
    leaves the tiles before it alone. *)
Lemma Cancel_loop_marks (fuel : nat) (r : Render.CRenderer) :
  (0 <= Render.mCurrentWorkArea r)%Z ->
  (Z.of_nat (length (Render.mWorkAreas r)) < 2 ^ 32)%Z ->
  (Z.of_nat (length (Render.mWorkAreas r)) - Render.mCurrentWorkArea r
   <= Z.of_nat fuel)%Z ->
  Render.mCurrentWorkArea (Render.Cancel_loop fuel r)
  = Z.max (Render.mCurrentWorkArea r) (Z.of_nat (length (Render.mWorkAreas r)))
  /\ forall i w, Render.mWorkAreas r !! i = Some w ->
       Render.mWorkAreas (Render.Cancel_loop fuel r) !! i
       = Some (if (Render.mCurrentWorkArea r <=? Z.of_nat i)%Z
               then Render.job_done w else w).
Proof.
  revert r. induction fuel as [|fuel IH]; intros r Hc Hlen Hfuel; simpl.
  - split; [lia|]. intros i w Hw.
    pose proof (lookup_lt_Some _ _ _ Hw) as Hi.
    destruct (Z.leb_spec (Render.mCurrentWorkArea r) (Z.of_nat i));
      [lia | exact Hw].
  - destruct (Z.ltb_spec (Render.mCurrentWorkArea r)
                (Z.of_nat (length (Render.mWorkAreas r)))) as [E|E].
    + set (r' := Render.set_jobs r _ _).
      assert (Hc' : Render.mCurrentWorkArea r'
                    = (Render.mCurrentWorkArea r + 1)%Z).
      { unfold r'; simpl. unfold wrap32. apply Z.mod_small. lia. }
      assert (Hl' : length (Render.mWorkAreas r')
                    = length (Render.mWorkAreas r)).
      { unfold r'; simpl. apply length_alter. }
      destruct (IH r') as (Hcur & Hlook); [lia | lia | lia |].
      split; [rewrite Hcur, Hc', Hl'; lia|].
      intros i w Hw.
      destruct (decide (i = Z.to_nat (Render.mCurrentWorkArea r))) as [->|Hne].
      * rewrite (Hlook _ (Render.job_done w)).
        -- rewrite Hc'.
           destruct (Z.leb_spec (Render.mCurrentWorkArea r + 1)
                       (Z.of_nat (Z.to_nat (Render.mCurrentWorkArea r))));
             [lia|].
           destruct (Z.leb_spec (Render.mCurrentWorkArea r)
                       (Z.of_nat (Z.to_nat (Render.mCurrentWorkArea r))));
             [reflexivity | lia].
        -- unfold r'; simpl. now rewrite list_lookup_alter_eq, Hw.
      * rewrite (Hlook i w).
        -- rewrite Hc'.
           destruct (Z.leb_spec (Render.mCurrentWorkArea r + 1) (Z.of_nat i));
             destruct (Z.leb_spec (Render.mCurrentWorkArea r) (Z.of_nat i));
             try reflexivity; lia.
        -- unfold r'; simpl. rewrite list_lookup_alter_ne by congruence.
           exact Hw.
    + split; [lia|]. intros i w Hw.
      pose proof (lookup_lt_Some _ _ _ Hw) as Hi.
      destruct (Z.leb_spec (Render.mCurrentWorkArea r) (Z.of_nat i));
        [lia | exact Hw].
Qed.

(** [Cancel] on a renderer whose handed-out tiles are all finished: the call
    returns, every tile from the cursor on is declared done with its
    rectangle untouched, the tiles before the cursor are as they were, the
    cursor stands at the end of the list, the frame counts as done, and
    nothing but the tile list and the cursor has changed. *)
Theorem Cancel_marks_remaining_tiles (r : Render.CRenderer) :
  (0 <= Render.mCurrentWorkArea r)%Z ->
  (Z.of_nat (length (Render.mWorkAreas r)) < 2 ^ 32)%Z ->
  (forall i w, Render.mWorkAreas r !! i = Some w ->
               (Z.of_nat i < Render.mCurrentWorkArea r)%Z ->
               Render.mJobDone w = true) ->
  exists r',
    Render.Cancel r = Some r'
    /\ Render.IsDone r' = true
    /\ Render.mCurrentWorkArea r'
       = Z.max (Render.mCurrentWorkArea r)
               (Z.of_nat (length (Render.mWorkAreas r)))
    /\ length (Render.mWorkAreas r') = length (Render.mWorkAreas r)
    /\ (forall i w, Render.mWorkAreas r !! i = Some w ->
          Render.mWorkAreas r' !! i
          = Some (if (Render.mCurrentWorkArea r <=? Z.of_nat i)%Z
                  then Render.job_done w else w))
    /\ Render.mBuffer r' = Render.mBuffer r
    /\ Render.mBufferWidth r' = Render.mBufferWidth r
    /\ Render.mBufferHeight r' = Render.mBufferHeight r
    /\ Render.mScene r' = Render.mScene r
    /\ Render.mTime r' = Render.mTime r
    /\ Render.mSleepControl r' = Render.mSleepControl r.
Proof.
  intros Hc Hlen Hbelow.
  destruct (Cancel_loop_marks (length (Render.mWorkAreas r)) r Hc Hlen
              ltac:(lia)) as (Hcur & Hlook).
  pose proof (Cancel_loop_frame (length (Render.mWorkAreas r)) r) as Hframe.
  cbv zeta in Hframe.
  destruct Hframe as (Hb & Hw & Hh & Hs & Ht & Hn & Hl & _).
  assert (Hdone : Render.IsDone
                    (Render.Cancel_loop (length (Render.mWorkAreas r)) r)
                  = true).
  { unfold Render.IsDone. apply IsDone_loop_lookup. intros i w' Hw'.
    assert (Hi : (i < length (Render.mWorkAreas r))%nat)
      by (rewrite <- Hl; eapply lookup_lt_Some; exact Hw').
    destruct (lookup_lt_is_Some_2 _ _ Hi) as (w & Hiw).
    rewrite (Hlook i w Hiw) in Hw'. injection Hw' as <-.
    destruct (Z.leb_spec (Render.mCurrentWorkArea r) (Z.of_nat i));
      [reflexivity | now apply (Hbelow i)]. }
  unfold Render.Cancel. cbv zeta. rewrite Hdone.
  eexists. split; [reflexivity|].
  split_all; assumption.
Qed.

(** The second tile of the half-done renderer is declared done, the first
    is left alone. *)
Lemma Cancel_marks_remaining_tiles_witness :
  Render.mWorkAreas <$> Render.Cancel half_done_renderer
  = Some [Render.mkWorkArea 0 0 1 2 true; Render.mkWorkArea 1 0 2 2 true].
Proof.
  destruct (Cancel_marks_remaining_tiles half_done_renderer)
    as (r' & Hrun & _).
  - discriminate.
  - reflexivity.
  - intros [|[|i]] w Hw Hi; simpl in Hw, Hi.
    + injection Hw as <-. reflexivity.
    + exfalso. lia.
    + discriminate.
  - rewrite Hrun. vm_compute in Hrun. injection Hrun as <-. reflexivity.
Defined.

(** [Cancel] does not return while a tile that was handed out before the
    call is unfinished: the marking loop never touches a tile before the
    cursor, so the waiting loop finds the frame not done. *)
Theorem Cancel_waits_for_tile_in_flight
    (r : Render.CRenderer) (i : nat) (w : Render.SWorkArea) :
  (0 <= Render.mCurrentWorkArea r)%Z ->
  (Z.of_nat (length (Render.mWorkAreas r)) < 2 ^ 32)%Z ->
  Render.mWorkAreas r !! i = Some w ->
  (Z.of_nat i < Render.mCurrentWorkArea r)%Z ->
  Render.mJobDone w = false ->
  Render.Cancel r = None.
Proof.
  intros Hc Hlen Hw Hi Hbusy.
  destruct (Cancel_loop_marks (length (Render.mWorkAreas r)) r Hc Hlen
              ltac:(lia)) as (_ & Hlook).
  specialize (Hlook i w Hw).
  destruct (Z.leb_spec (Render.mCurrentWorkArea r) (Z.of_nat i)); [lia|].
  unfold Render.Cancel. cbv zeta.
  destruct (Render.IsDone _) eqn:Hdone; [|reflexivity].
  unfold Render.IsDone in Hdone.
  rewrite IsDone_loop_lookup in Hdone.
  rewrite (Hdone i w Hlook) in Hbusy. discriminate.
Qed.

(** The only tile of the busy renderer is in flight. *)
Lemma Cancel_waits_for_tile_in_flight_witness :
  Render.Cancel busy_renderer = None.
Proof.
  apply (Cancel_waits_for_tile_in_flight busy_renderer 0
           (Render.mkWorkArea 0 0 2 2 false));
    [discriminate | reflexivity | reflexivity | reflexivity | reflexivity].
Defined.

(** ** The tiles of a frame *)

(** A strided loop that does not wrap: the values of its variable lie below
    the bound at whole multiples of the step from the start, every value of
    the range lies within one step above one of them, and there are no more
    of them than the range is long. *)
Lemma strides_spec (to step : Z) :
  (1 <= step)%Z ->
  forall (fuel : nat) (v : Z),
    (to - v <= Z.of_nat fuel)%Z ->
    (forall e, In e (strides fuel v to step) ->
       (e < to)%Z /\ exists k, (0 <= k)%Z /\ e = (v + k * step)%Z)
    /\ (forall p, (v <= p < to)%Z ->
          exists e, In e (strides fuel v to step) /\ (e <= p < e + step)%Z)
    /\ (Z.of_nat (length (strides fuel v to step)) <= Z.max 0 (to - v))%Z.
Proof.
  intros Hstep. induction fuel as [|fuel IH]; intros v Hfuel; simpl.
  - destruct (Z.ltb_spec v to) as [E|E]; [lia|].
    split_all; [intros e [] | intros p Hp; lia | simpl; lia].
  - destruct (Z.ltb_spec v to) as [E|E].
    + destruct (IH (v + step)%Z ltac:(lia)) as (Hin & Hcov & Hlen).
      split_all.
      * intros e [<- | He].
        { split; [lia|]. exists 0%Z. lia. }
        destruct (Hin e He) as (Hlt & k & Hk & ->).
        split; [lia|]. exists (k + 1)%Z. lia.
      * intros p Hp. destruct (Z.lt_ge_cases p (v + step)) as [Hlt|Hge].
        { exists v. split; [now left | lia]. }
        destruct (Hcov p ltac:(lia)) as (e & He & Hpe).
        exists e. split; [now right | exact Hpe].
      * simpl length. lia.
    + split_all; [intros e [] | intros p Hp; lia | simpl; lia].
Qed.

(** A strided loop whose body appends [row v] to a list. *)
Lemma for_u32_strides {A : Type} (row : Z -> list A)
    (body : Z -> list A -> option (list A)) (to step : Z) :
  (1 <= step)%Z -> (to + step <= 2 ^ 32)%Z ->
  (forall x acc, body x acc = Some (acc ++ row x)) ->
  forall (fuel : nat) (v : Z) (acc : list A),
    (0 <= v)%Z -> (to - v <= Z.of_nat fuel)%Z ->
    Render.for_u32 fuel v to step body acc
    = Some (acc ++ flat_map row (strides fuel v to step)).
Proof.
  intros Hstep Hto Hbody.
  induction fuel as [|fuel IH]; intros v acc Hv Hfuel; simpl.
  - destruct (Z.ltb_spec v to); [lia|]. now rewrite app_nil_r.
  - destruct (Z.ltb_spec v to) as [E|E]; [|now rewrite app_nil_r].
    rewrite Hbody. unfold wrap32. rewrite Z.mod_small by lia.
    rewrite IH by lia. simpl. now rewrite <- List.app_assoc.
Qed.

(** The step sizes [RenderScene] computes are at least one and no longer
    than the side they cut. *)
Lemma step_size_range (side edgeJobCount : Z) :
  (0 <= side)%Z -> (0 <= edgeJobCount)%Z ->
  (1 <= NMath.max_val_u 1 (side / edgeJobCount) <= Z.max 1 side)%Z.
Proof.
  intros Hs He. unfold NMath.max_val_u.
  destruct (Z.eq_dec edgeJobCount 0%Z) as [->|Hne].
  - rewrite Z.div_0_r. simpl. lia.
  - assert (Hq : (0 <= side / edgeJobCount <= side)%Z).
    { split; [apply Z.div_pos; lia|].
      apply Z.div_le_upper_bound; [lia|].
      rewrite <- (Z.mul_1_l side) at 1.
      apply Z.mul_le_mono_nonneg_r; lia. }
    rewrite Z.gtb_ltb.
    destruct (Z.ltb_spec (side / edgeJobCount) 1%Z); lia.
Qed.

(** [RenderScene] on a finished frame replaces the tile list by the grid. *)
Lemma RenderScene_grid (sqrtf : real32 -> real32)
    (hardware_concurrency skJobCoreMultiplier : Z) (r : Render.CRenderer) :
  Render.IsDone r = true ->
  (0 <= Render.mBufferWidth r <= 2 ^ 31)%Z ->
  (0 <= Render.mBufferHeight r <= 2 ^ 31)%Z ->
  exists hStepSize vStepSize,
    (1 <= hStepSize <= Z.max 1 (Render.mBufferWidth r))%Z
    /\ (1 <= vStepSize <= Z.max 1 (Render.mBufferHeight r))%Z
    /\ Render.RenderScene sqrtf hardware_concurrency skJobCoreMultiplier r
       = Some (Render.notify_all
                 (Render.set_jobs r
                    (grid (Render.mBufferWidth r) (Render.mBufferHeight r)
                          hStepSize vStepSize) 0)).
Proof.
  intros Hdone Hw Hh. unfold Render.RenderScene. rewrite Hdone. cbv zeta.
  set (edge := wrap32 (Qfloor (NMath.max_val _ 1))).
  assert (Hedge : (0 <= edge)%Z).
  { unfold edge, wrap32. apply Z.mod_pos_bound. lia. }
  pose proof (step_size_range (Render.mBufferWidth r) edge (proj1 Hw) Hedge)
    as Hhs.
  pose proof (step_size_range (Render.mBufferHeight r) edge (proj1 Hh) Hedge)
    as Hvs.
  set (hs := NMath.max_val_u 1 (Render.mBufferWidth r / edge)) in *.
  set (vs := NMath.max_val_u 1 (Render.mBufferHeight r / edge)) in *.
  exists hs, vs. split_all; try lia.
  rewrite (for_u32_strides
             (fun y =>
                flat_map
                  (fun x =>
                     [Render.mkWorkArea x y
                        (NMath.min_val_u (Render.mBufferWidth r)
                                         (wrap32 (x + hs)))
                        (NMath.min_val_u (Render.mBufferHeight r)
                                         (wrap32 (y + vs)))
                        false])
                  (strides (Z.to_nat (Render.mBufferWidth r)) 0
                           (Render.mBufferWidth r) hs)));
    [reflexivity | lia | lia | | lia | lia].
  intros y acc.
  apply (for_u32_strides
           (fun x =>
              [Render.mkWorkArea x y
                 (NMath.min_val_u (Render.mBufferWidth r) (wrap32 (x + hs)))
                 (NMath.min_val_u (Render.mBufferHeight r) (wrap32 (y + vs)))
                 false]));
    [lia | lia | reflexivity | lia | lia].
Qed.

(** The tiles of the grid: each lies in the buffer, is not empty, starts at
    a whole multiple of the step sizes and is one step long unless the
    buffer ends before; every pixel lies in one of them. *)
Lemma grid_facts (width height hs vs : Z) :
  (0 <= width)%Z -> (0 <= height)%Z -> (1 <= hs)%Z -> (1 <= vs)%Z ->
  (width + hs <= 2 ^ 32)%Z -> (height + vs <= 2 ^ 32)%Z ->
  (forall t, In t (grid width height hs vs) ->
     (exists i j, (0 <= i)%Z /\ (0 <= j)%Z
        /\ t = Render.mkWorkArea (i * hs) (j * vs)
                 (Z.min width (i * hs + hs)) (Z.min height (j * vs + vs))
                 false)
     /\ (Render.mMinX t < width)%Z /\ (Render.mMinY t < height)%Z)
  /\ (forall x y, (0 <= x < width)%Z -> (0 <= y < height)%Z ->
        exists t, In t (grid width height hs vs) /\ in_tile t x y = true)
  /\ (Z.of_nat (length (grid width height hs vs)) <= width * height)%Z.
Proof.
  intros Hw Hh Hhs Hvs Hwb Hhb.
  destruct (strides_spec width hs Hhs (Z.to_nat width) 0%Z ltac:(lia))
    as (Hxin & Hxcov & Hxlen).
  destruct (strides_spec height vs Hvs (Z.to_nat height) 0%Z ltac:(lia))
    as (Hyin & Hycov & Hylen).
  assert (Hmin : forall side step e, (0 <= e)%Z -> (e < side)%Z ->
            (1 <= step)%Z -> (side + step <= 2 ^ 32)%Z ->
            NMath.min_val_u side (wrap32 (e + step)) = Z.min side (e + step)).
  { intros side step e He0 He Hs Hb. unfold NMath.min_val_u, wrap32.
    rewrite Z.mod_small by lia.
    destruct (Z.ltb_spec side (e + step)); lia. }
  unfold grid. split_all.
  - intros t Ht. apply in_flat_map in Ht as (y & Hy & Ht).
    apply in_flat_map in Ht as (x & Hx & Ht).
    destruct Ht as [<- | []].
    destruct (Hxin x Hx) as (Hxw & i & Hi & ->).
    destruct (Hyin y Hy) as (Hyh & j & Hj & ->).
    simpl in Hxw, Hyh |- *.
    pose proof (Z.mul_nonneg_nonneg i hs Hi ltac:(lia)) as Hih.
    pose proof (Z.mul_nonneg_nonneg j vs Hj ltac:(lia)) as Hjv.
    rewrite !Hmin by lia.
    split_all; [|lia|lia].
    exists i, j. split_all; [lia | lia | reflexivity].
  - intros x y Hx Hy.
    destruct (Hxcov x Hx) as (ex & Hex & Hxr).
    destruct (Hycov y Hy) as (ey & Hey & Hyr).
    destruct (Hxin ex Hex) as (Hexw & i & Hi & Hexi).
    destruct (Hyin ey Hey) as (Heyh & j & Hj & Heyj).
    pose proof (Z.mul_nonneg_nonneg i hs Hi ltac:(lia)) as Hih.
    pose proof (Z.mul_nonneg_nonneg j vs Hj ltac:(lia)) as Hjv.
    eexists. split.
    + apply in_flat_map. exists ey. split; [exact Hey|].
      apply in_flat_map. exists ex. split; [exact Hex | left; reflexivity].
    + unfold in_tile; simpl.
      rewrite !Hmin by lia.
      region_cases.
  - rewrite (flat_map_constant_length
               (c := length (strides (Z.to_nat width) 0 width hs))).
    + rewrite Nat2Z.inj_mul, (Z.mul_comm width height).
      apply Z.mul_le_mono_nonneg; lia.
    + intros y _.
      rewrite (flat_map_constant_length (c := 1%nat)); [lia | reflexivity].
Qed.

(** Two strides that hold the same value are the same stride. *)
Lemma stride_unique (step i i' p : Z) :
  (1 <= step)%Z ->
  (i * step <= p < i * step + step)%Z ->
  (i' * step <= p < i' * step + step)%Z ->
  i = i'.
Proof.
  intros Hstep Hi Hi'.
  rewrite (Z.div_unique p step i (p - i * step)) by (try left; lia).
  rewrite (Z.div_unique p step i' (p - i' * step)) by (try left; lia).
  reflexivity.
Qed.

(** [RenderScene] on a finished frame cuts the buffer into tiles: the call
    returns with a new tile list, the cursor at its start and the workers
    woken once, and changes nothing else; every tile is a non-empty
    rectangle inside the buffer and not yet done; every pixel of the buffer
    lies in a tile, and two tiles that hold the same pixel are the same
    tile.  The sides are at most 2^31 pixels, so that no loop variable
    wraps, and the tile count per side is not zero, so that the divisions
    are defined. *)
Theorem RenderScene_tiles (sqrtf : real32 -> real32)
    (hardware_concurrency skJobCoreMultiplier : Z) (r : Render.CRenderer) :
  Render.IsDone r = true ->
  (0 <= Render.mBufferWidth r <= 2 ^ 31)%Z ->
  (0 <= Render.mBufferHeight r <= 2 ^ 31)%Z ->
  wrap32 (Qfloor (NMath.max_val
                    (sqrtf (inject_Z (wrap32 (hardware_concurrency
                                              * skJobCoreMultiplier)))) 1))
    <> 0%Z ->
  exists r',
    Render.RenderScene sqrtf hardware_concurrency skJobCoreMultiplier r
      = Some r'
    /\ r' = Render.notify_all (Render.set_jobs r (Render.mWorkAreas r') 0)
    /\ (forall t, In t (Render.mWorkAreas r') ->
          (0 <= Render.mMinX t < Render.mMaxX t)%Z
          /\ (Render.mMaxX t <= Render.mBufferWidth r)%Z
          /\ (0 <= Render.mMinY t < Render.mMaxY t)%Z
          /\ (Render.mMaxY t <= Render.mBufferHeight r)%Z
          /\ Render.mJobDone t = false)
    /\ (forall x y, (0 <= x < Render.mBufferWidth r)%Z ->
                    (0 <= y < Render.mBufferHeight r)%Z ->
          exists t, In t (Render.mWorkAreas r') /\ in_tile t x y = true)
    /\ (forall t t' x y, In t (Render.mWorkAreas r') ->
          In t' (Render.mWorkAreas r') ->
          in_tile t x y = true -> in_tile t' x y = true -> t = t').
Proof.
  intros Hdone Hw Hh _.
  destruct (RenderScene_grid sqrtf hardware_concurrency skJobCoreMultiplier
              r Hdone Hw Hh) as (hs & vs & Hhs & Hvs & Hrun).
  destruct (grid_facts (Render.mBufferWidth r) (Render.mBufferHeight r) hs vs)
    as (Hin & Hcov & _); try lia.
  eexists. split; [exact Hrun|]. simpl.
  split_all.
  - reflexivity.
  - intros t Ht.
    destruct (Hin t Ht) as ((i & j & Hi & Hj & ->) & Hx & Hy).
    simpl in *.
    pose proof (Z.mul_nonneg_nonneg i hs Hi ltac:(lia)) as Hih.
    pose proof (Z.mul_nonneg_nonneg j vs Hj ltac:(lia)) as Hjv.
    split_all; try reflexivity; lia.
  - exact Hcov.
  - intros t t' x y Ht Ht' Hxy Hxy'.
    destruct (Hin t Ht) as ((i & j & Hi & Hj & ->) & Hx & Hy).
    destruct (Hin t' Ht') as ((i' & j' & Hi' & Hj' & ->) & Hx' & Hy').
    unfold in_tile in Hxy, Hxy'. simpl in *.
    repeat match goal with
           | H : _ && _ = true |- _ => apply andb_prop in H; destruct H
           | H : (_ <=? _)%Z = true |- _ => apply Z.leb_le in H
           | H : (_ <? _)%Z = true |- _ => apply Z.ltb_lt in H
           end.
    assert (i = i') by (apply (stride_unique hs i i' x); lia).
    assert (j = j') by (apply (stride_unique vs j j' y); lia).
    subst. reflexivity.
Qed.

(** With four jobs the 2 x 2 buffer is cut into tiles that hold the pixel
    (1, 1). *)
Lemma RenderScene_tiles_witness :
  exists r' t,
    Render.RenderScene isqrtf 4 1 idle_renderer = Some r'
    /\ In t (Render.mWorkAreas r') /\ in_tile t 1 1 = true.
Proof.
  destruct (RenderScene_tiles isqrtf 4 1 idle_renderer)
    as (r' & Hrun & _ & _ & Hcov & _);
    [reflexivity | split; discriminate | split; discriminate | discriminate |].
  destruct (Hcov 1%Z 1%Z) as (t & Ht & Hin);
    [split; (discriminate || reflexivity)
    |split; (discriminate || reflexivity) |].
  exists r', t. split_all; assumption.
Defined.

(** ** A frame from start to finish *)







(** ** The size of the window *)

(** The [WM_SIZE] handler rounds the client width up to the next multiple of
    four and takes the client height as it is. *)
Theorem WM_SIZE_rounds_width (lParam : Z) :
  (fst (size_of_lParam lParam) mod 4 = 0
   /\ Render.LOWORD lParam <= fst (size_of_lParam lParam)
      < Render.LOWORD lParam + 4
   /\ snd (size_of_lParam lParam) = Render.HIWORD lParam
   /\ 0 <= Render.LOWORD lParam < 2 ^ 16
   /\ 0 <= Render.HIWORD lParam < 2 ^ 16)%Z.
Proof.
  assert (Hmask : forall x, Z.land x 65535 = (x mod 2 ^ 16)%Z).
  { intros x. change 65535%Z with (Z.ones 16). apply Z.land_ones. lia. }
  assert (Hround : forall x, Z.land x (Z.lnot 3) = (x / 2 ^ 2 * 2 ^ 2)%Z).
  { intros x. rewrite <- Z.ldiff_land. change 3%Z with (Z.ones 2).
    rewrite Z.ldiff_ones_r by lia.
    now rewrite Z.shiftr_div_pow2, Z.shiftl_mul_pow2 by lia. }
  unfold size_of_lParam, Render.LOWORD, Render.HIWORD, wrap32;
    simpl fst; simpl snd.
  rewrite !Hmask, Hround.
  pose proof (Z.mod_pos_bound lParam (2 ^ 16)) as Hl.
  pose proof (Z.mod_pos_bound (Z.shiftr lParam 16) (2 ^ 16)) as Hh.
  set (w := (lParam mod 2 ^ 16)%Z) in *.
  set (h := (Z.shiftr lParam 16 mod 2 ^ 16)%Z) in *.
  rewrite (Z.mod_small h) by lia.
  rewrite (Z.mod_small ((w + 3) / 2 ^ 2 * 2 ^ 2)%Z)
    by (change (2 ^ 2)%Z with 4%Z; Z.div_mod_to_equations; lia).
  change (2 ^ 2)%Z with 4%Z.
  split_all; try lia; Z.div_mod_to_equations; lia.
Qed.

(** ** Presenting the buffer *)

Lemma channel_byte_defined (c : Q) :
  0 <= c ->
  channel_byte c = Some (Qfloor (NMath.min_val 1 c * 255))
  /\ (0 <= Qfloor (NMath.min_val 1%Q c * 255%Q) <= 255)%Z.
Proof.
  intros Hc. unfold channel_byte, to_uint8.
  set (v := NMath.min_val 1 c * 255).
  assert (Hv : 0 <= v <= 255).
  { unfold v, NMath.min_val. fcases; lra. }
  assert (Hf : (0 <= Qfloor v <= 255)%Z).
  { split.
    - change 0%Z with (Qfloor 0). apply Qfloor_resp_le. lra.
    - change 255%Z with (Qfloor 255). apply Qfloor_resp_le. lra. }
  cbv zeta.
  replace (fltb v 0) with false by (symmetry; apply fltb_ge; lra).
  destruct (Z.leb_spec 0 (Qfloor v)); [|lia].
  destruct (Z.ltb_spec (Qfloor v) 256); [|lia].
  split; [reflexivity | exact Hf].
Qed.

(** The byte of a colour channel that is not negative: it is defined and
    lies in 0..255, it is 255 for every channel value from 1 on (the value
    is clamped at 1 first), it is the channel times 255 rounded down below
    that, and a smaller channel value never gives a larger byte. *)
Theorem channel_byte_range (c : Q) :
  0 <= c ->
  exists b,
    channel_byte c = Some b
    /\ (0 <= b <= 255)%Z
    /\ (1 <= c -> b = 255%Z)
    /\ (c < 1 -> b = Qfloor (c * 255))
    /\ (forall c', 0 <= c' -> c' <= c ->
          exists b', channel_byte c' = Some b' /\ (b' <= b)%Z).
Proof.
  intros Hc.
  destruct (channel_byte_defined c Hc) as (Hb & Hrange).
  eexists. split; [exact Hb|]. split_all.
  - lia.
  - lia.
  - intros H1. unfold NMath.min_val.
    destruct (fltb 1 c) eqn:E; [reflexivity|].
    apply fltb_ge in E.
    assert (Hc1 : c * 255 == 255) by lra.
    rewrite Hc1. reflexivity.
  - intros H1. unfold NMath.min_val.
    replace (fltb 1 c) with false by (symmetry; apply fltb_ge; lra).
    reflexivity.
  - intros c' Hc' Hle.
    destruct (channel_byte_defined c' Hc') as (Hb' & _).
    eexists. split; [exact Hb'|].
    apply Qfloor_resp_le. unfold NMath.min_val. fcases; lra.
Qed.

(** Half intensity gives the byte 127, and twice the full intensity 255. *)
Lemma channel_byte_range_witness :
  channel_byte (1 # 2) = Some 127%Z /\ channel_byte 2 = Some 255%Z.
Proof.
  split.
  - destruct (channel_byte_range (1 # 2)) as (b & Hb & _ & _ & Hlow & _);
      [discriminate|].
    rewrite Hb, (Hlow eq_refl). reflexivity.
  - destruct (channel_byte_range 2) as (b & Hb & _ & Hhigh & _);
      [discriminate|].
    rewrite Hb, Hhigh by discriminate. reflexivity.
Defined.

Lemma store_byte_eq (position value : Z) (bitmap : list Z) :
  (0 <= position < Z.of_nat (length bitmap))%Z ->
  store_byte (wrap32 position) value bitmap
  = Some (<[ Z.to_nat position := value ]> bitmap)
    \/ (2 ^ 32 <= position)%Z.
Proof.
  intros Hp. destruct (Z.lt_ge_cases position (2 ^ 32)) as [Hlt|Hge];
    [left | right; exact Hge].
  unfold store_byte, wrap32. rewrite Z.mod_small by lia.
  destruct (Z.ltb_spec position (Z.of_nat (length bitmap))); [reflexivity|lia].
Qed.

(** One pixel of the conversion. *)
Lemma Presented_step (buffer : list CColor4f) (old bitmap : list Z)
    (n : Z) (c : CColor4f) :
  (0 <= n)%Z -> (4 * n + 4 <= 2 ^ 32)%Z ->
  (4 * n + 4 <= Z.of_nat (length old))%Z ->
  buffer !! Z.to_nat n = Some c ->
  NonNegative c ->
  Presented buffer old n bitmap ->
  exists bitmap',
    match channel_byte (mBlue c), channel_byte (mGreen c),
          channel_byte (mRed c) with
    | Some blue, Some green, Some red =>
        match store_byte (wrap32 (wrap32 (n * 4) + 0)) blue bitmap with
        | Some bitmap1 =>
            match store_byte (wrap32 (wrap32 (n * 4) + 1)) green bitmap1 with
            | Some bitmap2 =>
                store_byte (wrap32 (wrap32 (n * 4) + 2)) red bitmap2
            | None => None
            end
        | None => None
        end
    | _, _, _ => None
    end = Some bitmap'
    /\ Presented buffer old (n + 1) bitmap'.
Proof.
  intros Hn Hfit Hlen Hc (Hr & Hg & Hb) (Hsame & Hdone & Hrest).
  destruct (channel_byte_defined _ Hb) as (Eb & _).
  destruct (channel_byte_defined _ Hg) as (Eg & _).
  destruct (channel_byte_defined _ Hr) as (Er & _).
  rewrite Eb, Eg, Er.
  set (blue := Qfloor (NMath.min_val 1 (mBlue c) * 255)) in *.
  set (green := Qfloor (NMath.min_val 1 (mGreen c) * 255)) in *.
  set (red := Qfloor (NMath.min_val 1 (mRed c) * 255)) in *.
  assert (Hpos : wrap32 (n * 4) = (4 * n)%Z).
  { unfold wrap32. rewrite Z.mod_small; lia. }
  rewrite Hpos.
  destruct (store_byte_eq (4 * n + 0) blue bitmap) as [-> | ?]; [lia | | lia].
  destruct (store_byte_eq (4 * n + 1) green
              (<[ Z.to_nat (4 * n + 0) := blue ]> bitmap)) as [-> | ?];
    [rewrite length_insert; lia | | lia].
  destruct (store_byte_eq (4 * n + 2) red
              (<[ Z.to_nat (4 * n + 1) := green ]>
                 (<[ Z.to_nat (4 * n + 0) := blue ]> bitmap))) as [-> | ?];
    [rewrite !length_insert; lia | | lia].
  eexists. split; [reflexivity|].
  unfold Presented. rewrite !length_insert. split_all.
  - exact Hsame.
  - intros i c' Hc' Hi.
    destruct (Z.eq_dec (Z.of_nat i) n) as [Heq|Hne].
    + assert (Hin : i = Z.to_nat n) by lia. subst i.
      rewrite Hc in Hc'. injection Hc' as <-.
      rewrite Eb, Eg, Er.
      replace (Z.to_nat (4 * n + 0)) with (4 * Z.to_nat n)%nat by lia.
      replace (Z.to_nat (4 * n + 1)) with (4 * Z.to_nat n + 1)%nat by lia.
      replace (Z.to_nat (4 * n + 2)) with (4 * Z.to_nat n + 2)%nat by lia.
      split_all.
      * rewrite list_lookup_insert_ne by lia.
        rewrite list_lookup_insert_ne by lia.
        apply list_lookup_insert_eq. lia.
      * rewrite list_lookup_insert_ne by lia.
        apply list_lookup_insert_eq. rewrite length_insert. lia.
      * apply list_lookup_insert_eq. rewrite !length_insert. lia.
    + destruct (Hdone i c' Hc') as (H0 & H1 & H2); [lia|].
      rewrite <- H0, <- H1, <- H2.
      split_all; rewrite !list_lookup_insert_ne by lia; reflexivity.
  - intros j Hj.
    rewrite !list_lookup_insert_ne.
    + apply Hrest. destruct Hj as [Hj|Hj]; [left; lia | right; exact Hj].
    + intros <-. destruct Hj as [Hj|Hj]; [lia|].
      rewrite Z2Nat.id in Hj by lia. revert Hj.
      Z.div_mod_to_equations. lia.
    + intros <-. destruct Hj as [Hj|Hj]; [lia|].
      rewrite Z2Nat.id in Hj by lia. revert Hj.
      Z.div_mod_to_equations. lia.
    + intros <-. destruct Hj as [Hj|Hj]; [lia|].
      rewrite Z2Nat.id in Hj by lia. revert Hj.
      Z.div_mod_to_equations. lia.
Qed.

Lemma Presented_nothing (buffer : list CColor4f) (old : list Z) :
  Presented buffer old 0 old.
Proof.
  unfold Presented. split_all; [reflexivity | intros; lia | reflexivity].
Qed.

(** The conversion of the [WM_PAINT] handler: for a buffer of non-negative
    colours and a bitmap of four bytes per pixel with fewer than 2^32 bytes,
    the loops return; each pixel's blue, green and red bytes then stand in
    this order at four times the pixel's index, and the fourth byte of
    every pixel is untouched. *)
Theorem OnPaint_convert_presents (r : Render.CRenderer) (bitmap : list Z) :
  BufferOk r ->
  (4 * (Render.mBufferWidth r * Render.mBufferHeight r) <= 2 ^ 32)%Z ->
  Z.of_nat (length bitmap)
  = (4 * (Render.mBufferWidth r * Render.mBufferHeight r))%Z ->
  Forall NonNegative (Render.mBuffer r) ->
  exists bitmap',
    OnPaint_convert r bitmap = Some bitmap'
    /\ Presented (Render.mBuffer r) bitmap
                 (Render.mBufferWidth r * Render.mBufferHeight r) bitmap'.
Proof.
  intros (Hw & Hh & Hcells) Hfit Hlen Hpos.
  set (w := Render.mBufferWidth r) in *.
  set (h := Render.mBufferHeight r) in *.
  unfold OnPaint_convert. fold w h.
  match goal with
  | |- exists b, Render.for_u32 ?fl _ _ _ ?bd ?st = Some b /\ _ =>
      destruct (for_u32_inv_at
                  (fun v s => Presented (Render.mBuffer r) bitmap (v * w) s)
                  bd 0%Z h ltac:(lia) (proj2 Hh))
        with (fuel := fl) (v := 0%Z) (s := st) as (bm & Hrun & HP)
  end; try lia.
  - intros y s Hy HP. cbv beta zeta.
    assert (Hrow0 : (0 <= y * w)%Z) by (apply Z.mul_nonneg_nonneg; lia).
    assert (Hrow : (y * w + w <= w * h)%Z).
    { replace (y * w + w)%Z with ((y + 1) * w)%Z by lia.
      rewrite (Z.mul_comm w h). apply Z.mul_le_mono_nonneg_r; lia. }
    match goal with
    | |- exists b, Render.for_u32 ?fl _ _ _ ?bd ?st = Some b /\ _ =>
        destruct (for_u32_inv_at
                    (fun v s =>
                       Presented (Render.mBuffer r) bitmap (y * w + v) s)
                    bd 0%Z w ltac:(lia) (proj2 Hw))
          with (fuel := fl) (v := 0%Z) (s := st) as (bm & Hrun & HQ)
    end; try lia.
    + intros x s1 Hx HQ. cbv beta zeta.
      assert (Hidx : wrap32 (wrap32 (y * w) + x) = (y * w + x)%Z).
      { unfold wrap32. rewrite (Z.mod_small (y * w)) by lia.
        apply Z.mod_small. lia. }
      rewrite Hidx.
      destruct (lookup_lt_is_Some_2 (Render.mBuffer r) (Z.to_nat (y * w + x)))
        as (c & Hc); [lia|].
      rewrite Hc.
      destruct (Presented_step (Render.mBuffer r) bitmap s1 (y * w + x) c)
        as (s2 & Hstep & HQ'); try lia; try assumption.
      { eapply Forall_lookup_1; [exact Hpos | exact Hc]. }
      exists s2. split; [exact Hstep|].
      replace (y * w + (x + 1))%Z with (y * w + x + 1)%Z by lia.
      exact HQ'.
    + replace (y * w + 0)%Z with (y * w)%Z by lia. exact HP.
    + exists bm. split; [exact Hrun|].
      rewrite Z.max_r in HQ by lia.
      replace ((y + 1) * w)%Z with (y * w + w)%Z by lia.
      exact HQ.
  - apply Presented_nothing.
  - exists bm. split; [exact Hrun|].
    rewrite Z.max_r in HP by lia.
    replace (w * h)%Z with (h * w)%Z by lia. exact HP.
Qed.

(** A 2 x 1 buffer of a white and a fill-coloured pixel over a zeroed
    bitmap. *)
Lemma OnPaint_convert_presents_witness :
  OnPaint_convert
    (Render.mkRenderer 2 1 0 [Col.White; fill_color] small_scene [] 0 false 0)
    (replicate 8 0%Z)
  = Some [255; 255; 255; 0; 178; 153; 127; 0]%Z.
Proof.
  destruct (OnPaint_convert_presents
              (Render.mkRenderer 2 1 0 [Col.White; fill_color] small_scene
                                 [] 0 false 0)
              (replicate 8 0%Z)) as (b & Hrun & _).
  - repeat split; (discriminate || reflexivity).
  - discriminate.
  - reflexivity.
  - repeat constructor; discriminate.
  - rewrite Hrun. vm_compute in Hrun. injection Hrun as <-. reflexivity.
Defined.
